(** * Buscador.cpp: gestion y busqueda de correos

    Shallow embedding of [src/Buscador.cpp] and verification of its
    indexing and retrieval behaviour.

    Modelling conventions.
    - [std::string] is [string] (a sequence of 8-bit characters).  The
      comparison [operator<] of [std::string] is lexicographic on unsigned
      bytes, then on length: this is [String.ltb].
    - [int] is [Z]; the post-increment of the static counter [nextID] is
      written with its 32-bit two's complement wrap-around ([wrap32]).
    - [std::unordered_map] is [gmap]: it has no observable order, so the results
      of iterating over one are only ever stated up to order.
    - [tolower] and [isalnum] are those of the "C" locale (the program never
      calls [setlocale]): only the ASCII letters and digits are concerned.
    - The global variables and the function-local static [nextID] are the
      fields of [Globales], threaded explicitly through [crearCorreo].
    - Terminal input and output (menus, ANSI colours, [cin]) are left out;
      each interactive search is modelled by the value it computes and then
      prints. *)

From Stdlib Require Import ZArith Ascii Sorted.
From stdpp Require Import gmap strings list fin_maps sorting.

Local Open Scope Z_scope.

(** ** Characters *)

(** [tolower] in the "C" locale: 'A'..'Z' are moved to 'a'..'z', every
    other byte is returned as it is. *)
Definition tolower (ch : ascii) : ascii :=
  let n := N_of_ascii ch in
  if ((65 <=? n) && (n <=? 90))%N then ascii_of_N (n + 32) else ch.

(** [isalnum((unsigned char)ch)] in the "C" locale. *)
Definition isalnum (ch : ascii) : bool :=
  let n := N_of_ascii ch in
  ((48 <=? n) && (n <=? 57) || (65 <=? n) && (n <=? 90)
   || (97 <=? n) && (n <=? 122))%N.

(** The lambda [aMinusculas] of [crearCorreo]; [buscarPalabraANSI] runs the
    same loop on the query. *)
Fixpoint aMinusculas (s : string) : string :=
  match s with
  | EmptyString => EmptyString
  | String ch s' => String (tolower ch) (aMinusculas s')
  end.

(** ** Records and the date tree *)

Record Correo := mkCorreo {
  id : Z;
  remitente : string;
  asunto : string;
  cuerpo : string;
  fecha : string
}.

#[global] Instance Correo_eq_dec : EqDecision Correo.
Proof. solve_decision. Defined.

(** A default-constructed [Correo], what [operator[]] of a map yields for a
    key it does not hold. *)
Definition correo_vacio : Correo := mkCorreo 0 EmptyString EmptyString EmptyString EmptyString.

(** [NodoCorreo*]: [Nulo] is [nullptr]. *)
Inductive NodoCorreo :=
| Nulo
| Nodo (data : Correo) (izq der : NodoCorreo).

(** The private [ArbolCorreos::insertar(NodoCorreo*, Correo)]. *)
Fixpoint insertar_nodo (nodo : NodoCorreo) (c : Correo) : NodoCorreo :=
  match nodo with
  | Nulo => Nodo c Nulo Nulo
  | Nodo d izq der =>
      if String.ltb (fecha c) (fecha d)
      then Nodo d (insertar_nodo izq c) der
      else Nodo d izq (insertar_nodo der c)
  end.

(** [ArbolCorreos::inOrden]: [lista] is the vector passed by reference. *)
Fixpoint inOrden (nodo : NodoCorreo) (lista : list Correo) : list Correo :=
  match nodo with
  | Nulo => lista
  | Nodo d izq der => inOrden der (inOrden izq lista ++ [d])
  end.

Record ArbolCorreos := mkArbol { raiz : NodoCorreo }.

Definition arbol_vacio : ArbolCorreos := mkArbol Nulo.

Definition insertar (a : ArbolCorreos) (c : Correo) : ArbolCorreos :=
  mkArbol (insertar_nodo (raiz a) c).

Definition obtenerOrdenados (a : ArbolCorreos) : list Correo :=
  inOrden (raiz a) [].

(** ** Global structures and [crearCorreo] *)

Definition wrap32 (z : Z) : Z := (z + 2 ^ 31) `mod` 2 ^ 32 - 2 ^ 31.

Definition INT_MAX : Z := 2147483647.

Record Globales := mkGlobales {
  nextID : Z;
  correosPorRemitente : gmap string (list Correo);
  matrizDispersa : gmap Z (gmap string Z);
  correosPorID : gmap Z Correo
}.

Definition globales_iniciales : Globales := mkGlobales 1 ∅ ∅ ∅.

(** [matrizDispersa[id][palabra] = 1]: both [operator[]] create the entry
    when it is missing. *)
Definition marcar (m : gmap Z (gmap string Z)) (i : Z) (palabra : string)
  : gmap Z (gmap string Z) :=
  <[i := <[palabra := 1]> (default ∅ (m !! i))]> m.

(** The loop [for (char ch : texto)] of [crearCorreo]; the loop state is the
    word being accumulated and the matrix. *)
Fixpoint indexar (texto : string) (i : Z) (palabra : string)
    (m : gmap Z (gmap string Z)) : string * gmap Z (gmap string Z) :=
  match texto with
  | EmptyString => (palabra, m)
  | String ch resto =>
      if isalnum ch then indexar resto i (palabra +:+ String ch EmptyString) m
      else if decide (palabra = EmptyString) then indexar resto i palabra m
      else indexar resto i EmptyString (marcar m i palabra)
  end.

Definition crearCorreo (g : Globales) (rem asu cue fec : string)
  : Correo * Globales :=
  let c := mkCorreo (nextID g) rem asu cue fec in
  let porRemitente :=
    <[rem := default [] (correosPorRemitente g !! rem) ++ [c]]>
      (correosPorRemitente g) in
  let porID := <[id c := c]> (correosPorID g) in
  let texto := aMinusculas (asu +:+ " " +:+ cue) in
  let '(palabra, m) := indexar texto (id c) EmptyString (matrizDispersa g) in
  let m' := if decide (palabra = EmptyString) then m else marcar m (id c) palabra in
  (c, mkGlobales (wrap32 (nextID g + 1)) porRemitente m' porID).

(** ** The program state: the globals and the tree of [main] *)

Record Sistema := mkSistema { globales : Globales; arbol : ArbolCorreos }.

Definition sistema_inicial : Sistema :=
  mkSistema globales_iniciales arbol_vacio.

Definition Entrada : Type := string * string * string * string.

(** [arbol.insertar(crearCorreo(rem, asu, cue, fecha))], the one way the
    program adds a record. *)
Definition ingresar (s : Sistema) (e : Entrada) : Correo * Sistema :=
  let '(rem, asu, cue, fec) := e in
  let '(c, g) := crearCorreo (globales s) rem asu cue fec in
  (c, mkSistema g (insertar (arbol s) c)).

Fixpoint ingresar_todos (s : Sistema) (es : list Entrada)
  : list Correo * Sistema :=
  match es with
  | [] => ([], s)
  | e :: es' =>
      let '(c, s1) := ingresar s e in
      let '(cs, s2) := ingresar_todos s1 es' in
      (c :: cs, s2)
  end.

(** The records created, in creation order, and the state reached, when the
    program starts from nothing and adds [es]. *)
Definition creados (es : list Entrada) : list Correo :=
  (ingresar_todos sistema_inicial es).1.

Definition estado (es : list Entrada) : Sistema :=
  (ingresar_todos sistema_inicial es).2.

(** ** The file loader *)

(** [getline(ss, campo, delim)] on the rest of a [stringstream]: the field
    read and what is left of the stream.  On an exhausted stream nothing is
    extracted and the (freshly declared, empty) destination stays empty. *)
Fixpoint getline (ss : string) (delim : ascii) : string * string :=
  match ss with
  | EmptyString => (EmptyString, EmptyString)
  | String ch resto =>
      if decide (ch = delim) then (EmptyString, resto)
      else let '(campo, r) := getline resto delim in (String ch campo, r)
  end.

(** The body of the [while (getline(file, linea))] loop. *)
Definition procesarLinea (s : Sistema) (linea : string) : Sistema :=
  let '(rem, ss1) := getline linea ";" in
  let '(asu, ss2) := getline ss1 ";" in
  let '(cue, ss3) := getline ss2 ";" in
  let '(fec, _) := getline ss3 ";" in
  if decide (rem = EmptyString) then s
  else (ingresar s (rem, asu, cue, fec)).2.

(** [cargarCorreosDesdeArchivo]: the file is given by its lines, [None]
    when it cannot be opened. *)
Definition cargarCorreosDesdeArchivo (archivo : option (list string))
    (s : Sistema) : Sistema :=
  match archivo with
  | None => s
  | Some lineas => foldl procesarLinea s lineas
  end.

(** ** The searches *)

(** [correosPorID[i]]. *)
Definition correoDeID (g : Globales) (i : Z) : Correo :=
  default correo_vacio (correosPorID g !! i).

(** The list printed by [verOrdenados]. *)
Definition verOrdenados (s : Sistema) : list Correo :=
  obtenerOrdenados (arbol s).

(** The list printed by [buscarRemitenteANSI]: nothing when the sender is
    not a key of the map. *)
Definition buscarRemitente (g : Globales) (rem : string) : list Correo :=
  match correosPorRemitente g !! rem with
  | None => []
  | Some lista => lista
  end.

(** The vector [resultados] of [buscarPalabraANSI], in the order in which
    the rows of the matrix happen to be visited. *)
Definition resultados (g : Globales) (palabra : string) : list Z :=
  let p := aMinusculas palabra in
  (filter (λ fila, is_Some (fila.2 !! p)) (map_to_list (matrizDispersa g))).*1.

(** The records printed by [buscarPalabraANSI]. *)
Definition buscarPalabra (g : Globales) (palabra : string) : list Correo :=
  correoDeID g <$> resultados g palabra.

(** The record opened when the user types [i] at one of the prompts
    "Ingrese ID ...": [if (id != 0 && correosPorID.count(id))]. *)
Definition abrirCorreo (g : Globales) (i : Z) : option Correo :=
  if decide (i ≠ 0) then correosPorID g !! i else None.

(** ** The scenario of two records *)

Definition entrada_a : Entrada := ("a@x.com", "Hi", "Hi there", "2025-01-02").
Definition entrada_b : Entrada := ("b@x.com", "Yo", "Hi all", "2025-01-01").
Definition correo_a : Correo := mkCorreo 1 "a@x.com" "Hi" "Hi there" "2025-01-02".
Definition correo_b : Correo := mkCorreo 2 "b@x.com" "Yo" "Hi all" "2025-01-01".

(** ** Vocabulary of the statements *)

(** The records of a tree, left to right. *)
Fixpoint aplanar (t : NodoCorreo) : list Correo :=
  match t with
  | Nulo => []
  | Nodo d izq der => aplanar izq ++ d :: aplanar der
  end.

Fixpoint tamano (t : NodoCorreo) : nat :=
  match t with
  | Nulo => 0
  | Nodo _ izq der => S (tamano izq + tamano der)
  end.

(** The date keys held by the nodes of a tree. *)
Definition claves (t : NodoCorreo) : list string := fecha <$> aplanar t.

Definition antes (c d : Correo) : Prop := String.le (fecha c) (fecha d).

Definition menor (c d : Correo) : Prop := String.ltb (fecha c) (fecha d) = true.

(** The ordering the code maintains: strictly smaller keys on the left,
    greater or equal keys on the right. *)
Fixpoint es_abb (t : NodoCorreo) : Prop :=
  match t with
  | Nulo => True
  | Nodo d izq der =>
      Forall (λ x, menor x d) (aplanar izq) ∧
      Forall (λ x, antes d x) (aplanar der) ∧
      es_abb izq ∧ es_abb der
  end.

(** A way down the tree: at each node, to the left or to the right
    child. *)
Inductive Lado := Izq | Der.

(** The subtree found at the end of a way, if the way stays in the tree. *)
Fixpoint subarbol_en (t : NodoCorreo) (p : list Lado) : option NodoCorreo :=
  match p, t with
  | [], _ => Some t
  | _ :: _, Nulo => None
  | Izq :: p', Nodo _ izq _ => subarbol_en izq p'
  | Der :: p', Nodo _ _ der => subarbol_en der p'
  end.

(** The tree with the subtree at the end of a way replaced by [nuevo],
    everything else kept. *)
Fixpoint reemplazar (t : NodoCorreo) (p : list Lado) (nuevo : NodoCorreo)
  : NodoCorreo :=
  match p, t with
  | [], _ => nuevo
  | _ :: _, Nulo => Nulo
  | Izq :: p', Nodo d izq der => Nodo d (reemplazar izq p' nuevo) der
  | Der :: p', Nodo d izq der => Nodo d izq (reemplazar der p' nuevo)
  end.

(** Records with the key [k], in the order of the list. *)
Definition conFecha (k : string) (l : list Correo) : list Correo :=
  filter (λ c, fecha c = k) l.

Definition lista : string → list ascii := String.list_ascii_of_string.

Definition alnum (ch : ascii) : Prop := isalnum ch = true.

(** Nothing alphanumeric stands immediately before (after) the run. *)
Definition borde_izq (pre : list ascii) : Prop :=
  match last pre with None => True | Some ch => isalnum ch = false end.

Definition borde_der (post : list ascii) : Prop :=
  match head post with None => True | Some ch => isalnum ch = false end.

(** [w] occurs in [t] as a maximal run of alphanumeric characters. *)
Definition corrida_maximal (w t : list ascii) : Prop :=
  w ≠ [] ∧ Forall alnum w ∧
  ∃ pre post, t = pre ++ w ++ post ∧ borde_izq pre ∧ borde_der post.

Definition es_token (w texto : string) : Prop :=
  corrida_maximal (lista w) (lista texto).

(** The text of a record that [crearCorreo] indexes. *)
Definition texto_de (c : Correo) : string :=
  aMinusculas (asunto c +:+ " " +:+ cuerpo c).

(** The words that the loop of [crearCorreo] marks, in order, when it
    starts on [texto] with [palabra] already accumulated. *)
Fixpoint palabras (palabra texto : string) : list string :=
  match texto with
  | EmptyString => if decide (palabra = EmptyString) then [] else [palabra]
  | String ch resto =>
      if isalnum ch then palabras (palabra +:+ String ch EmptyString) resto
      else if decide (palabra = EmptyString) then palabras EmptyString resto
      else palabra :: palabras EmptyString resto
  end.

(** Row [i] of the matrix has the column [p]. *)
Definition tiene (m : gmap Z (gmap string Z)) (i : Z) (p : string) : Prop :=
  ∃ fila, m !! i = Some fila ∧ is_Some (fila !! p).

(** The identifier that the creation number [k] (counting from 0) receives:
    the counter starts at 1 and wraps around like a 32-bit [int]. *)
Definition id_de (k : nat) : Z := wrap32 (1 + Z.of_nat k).

(** The fields a record was created from. *)
Definition campos (c : Correo) : Entrada :=
  (remitente c, asunto c, cuerpo c, fecha c).

(** What the global structures hold when the records [cs] have been created,
    in this order, since the start of the program. *)
Record inv_globales (cs : list Correo) (g : Globales) : Prop := {
  inv_next : nextID g = id_de (length cs);
  inv_ids : id <$> cs = id_de <$> seq 0 (length cs);
  inv_rem : ∀ r, buscarRemitente g r = filter (λ c, remitente c = r) cs;
  inv_id : ∀ i, correosPorID g !! i = last (filter (λ c, id c = i) cs);
  inv_mat : ∀ i p, tiene (matrizDispersa g) i p ↔
                   ∃ c, c ∈ cs ∧ id c = i ∧ es_token p (texto_de c);
  inv_filas : ∀ i, is_Some (matrizDispersa g !! i) → ∃ c, c ∈ cs ∧ id c = i
}.

(** What the tree holds when the records [cs] have been inserted. *)
Record inv_arbol (cs : list Correo) (a : ArbolCorreos) : Prop := {
  inv_abb : es_abb (raiz a);
  inv_perm : aplanar (raiz a) ≡ₚ cs;
  inv_fecha : ∀ k, conFecha k (aplanar (raiz a)) = conFecha k cs
}.

Definition inv (cs : list Correo) (s : Sistema) : Prop :=
  inv_globales cs (globales s) ∧ inv_arbol cs (arbol s).

(** What an index needs of a record: its identifier and the key the index
    is searched by. *)
Definition claves_de (c : Correo) : Z * string * string :=
  (id c, remitente c, fecha c).

(** If the tree and the sender map held identifiers only, their content
    would be settled by the identifiers and keys of the records created,
    whatever the rest of the records. *)
Definition solo_identificadores : Prop :=
  ∀ es1 es2 : list Entrada,
    claves_de <$> creados es1 = claves_de <$> creados es2 →
    arbol (estado es1) = arbol (estado es2) ∧
    correosPorRemitente (globales (estado es1)) =
      correosPorRemitente (globales (estado es2)).

(** ** The rest of the program *)

(** The three records that [main] creates before it reads the file. *)
Definition predefinidos : list Entrada :=
  [("juan@correo.com", "Reunion de equipo", "Reunion urgente mañana", "2025-11-10");
   ("ana@correo.com", "Entrega de tarea", "La tarea esta lista", "2025-11-11");
   ("luis@correo.com", "Proyecto nuevo", "Debemos entregar el reporte", "2025-11-09")].

(** [main] up to its menu loop: the three creations, then
    [cargarCorreosDesdeArchivo("correos.txt", arbol)]. *)
Definition main_carga (archivo : option (list string)) : Sistema :=
  cargarCorreosDesdeArchivo archivo (ingresar_todos sistema_inicial predefinidos).2.

(** The loop [while (getline(file, linea))] on the characters of the file
    that are still to be read.  [getline] fails, which ends the loop, when
    nothing is left to read; otherwise it takes at least one character, so
    that as many turns as the content has characters are enough. *)
Fixpoint leerLineas (turnos : nat) (contenido : string) (s : Sistema) : Sistema :=
  match turnos with
  | O => s
  | S k =>
      if decide (contenido = EmptyString) then s
      else let '(linea, resto) := getline contenido "010" in
           leerLineas k resto (procesarLinea s linea)
  end.

(** [cargarCorreosDesdeArchivo] on the content of the file, [None] when it
    cannot be opened. *)
Definition cargarContenido (contenido : option string) (s : Sistema) : Sistema :=
  match contenido with
  | None => s
  | Some c => leerLineas (String.length c) c s
  end.

(** [correosPorID[i]] as [operator[]] evaluates it: a key that is missing
    is added, with a default-constructed record. *)
Definition correosPorID_at (g : Globales) (i : Z) : Correo * Globales :=
  match correosPorID g !! i with
  | Some c => (c, g)
  | None =>
      (correo_vacio,
       mkGlobales (nextID g) (correosPorRemitente g) (matrizDispersa g)
         (<[i := correo_vacio]> (correosPorID g)))
  end.

(** The loop [for (int id : resultados)] of [buscarPalabraANSI], which
    evaluates [correosPorID[id]] for every result: the records printed and
    the globals afterwards. *)
Fixpoint imprimirResultados (g : Globales) (ids : list Z)
  : list Correo * Globales :=
  match ids with
  | [] => ([], g)
  | i :: ids' =>
      let '(c, g1) := correosPorID_at g i in
      let '(cs, g2) := imprimirResultados g1 ids' in
      (c :: cs, g2)
  end.

Definition buscarPalabraANSI (g : Globales) (palabra : string)
  : list Correo * Globales :=
  imprimirResultados g (resultados g palabra).

(** ** Vocabulary of the further statements *)

(** The fields that the four [getline] of the loader read from a line. *)
Definition separar (linea : string) : Entrada :=
  let '(rem, ss1) := getline linea ";" in
  let '(asu, ss2) := getline ss1 ";" in
  let '(cue, ss3) := getline ss2 ";" in
  let '(fec, _) := getline ss3 ";" in
  (rem, asu, cue, fec).

(** The lines of a file that the loader does not skip. *)
Definition conRemitente (lineas : list string) : list string :=
  filter (λ l, (getline l ";").1 ≠ EmptyString) lineas.

(** The creations that loading a file amounts to. *)
Definition entradas_de (archivo : option (list string)) : list Entrada :=
  match archivo with
  | None => []
  | Some lineas => separar <$> conRemitente lineas
  end.

(** The content of a file made of the given lines, each one ended by a
    newline. *)
Fixpoint unir (lineas : list string) : string :=
  match lineas with
  | [] => EmptyString
  | l :: ls => l +:+ String "010" (unir ls)
  end.

Fixpoint altura (t : NodoCorreo) : nat :=
  match t with
  | Nulo => 0
  | Nodo _ izq der => S (Nat.max (altura izq) (altura der))
  end.

(** No node has a left child. *)
Fixpoint espina_derecha (t : NodoCorreo) : Prop :=
  match t with
  | Nulo => True
  | Nodo _ izq der => izq = Nulo ∧ espina_derecha der
  end.

Definition dato_raiz (t : NodoCorreo) : option Correo :=
  match t with
  | Nulo => None
  | Nodo d _ _ => Some d
  end.

(** The cells of the matrix: every row has a column, every cell is 1. *)
Definition fila_marcada (fila : gmap string Z) (p : string) : Prop :=
  fila ≠ ∅ ∧ (fila !! p = None ∨ fila !! p = Some 1).

(** Every row has a column and every cell holds 1. *)
Definition celdas (m : gmap Z (gmap string Z)) : Prop :=
  ∀ i fila p, m !! i = Some fila → fila_marcada fila p.

(** * Verification *)

(** ** The order on date keys *)

Lemma ltb_false_le (s1 s2 : string) :
  String.ltb s1 s2 = false ↔ String.le s2 s1.
Proof.
  unfold String.le, String.ltb, String.leb.
  rewrite (String.compare_antisym s2 s1).
  destruct (String.compare s1 s2); simpl; naive_solver.
Qed.

Lemma ltb_true_not_le (s1 s2 : string) :
  String.ltb s1 s2 = true ↔ ¬ String.le s2 s1.
Proof.
  rewrite <- ltb_false_le. destruct (String.ltb s1 s2); naive_solver.
Qed.

Lemma ltb_true_le (s1 s2 : string) :
  String.ltb s1 s2 = true → String.le s1 s2.
Proof.
  intros H%ltb_true_not_le. destruct (total String.le s1 s2); tauto.
Qed.

Lemma ltb_irrefl (s : string) : String.ltb s s = false.
Proof. apply ltb_false_le. reflexivity. Qed.

(** [s1 < s2 <= s3] gives [s1 < s3], and likewise on the other side. *)
Lemma ltb_le_trans (s1 s2 s3 : string) :
  String.ltb s1 s2 = true → String.le s2 s3 → String.ltb s1 s3 = true.
Proof.
  rewrite !ltb_true_not_le. intros H12 H23 H31. apply H12. by etrans.
Qed.

Lemma le_ltb_trans (s1 s2 s3 : string) :
  String.le s1 s2 → String.ltb s2 s3 = true → String.ltb s1 s3 = true.
Proof.
  rewrite !ltb_true_not_le. intros H12 H23 H31. apply H23. by etrans.
Qed.

(** ** The date tree *)

Module Arbol.

Lemma inOrden_aplanar t lista : inOrden t lista = lista ++ aplanar t.
Proof.
  revert lista. induction t as [|d izq IHi der IHd]; intros lista; simpl.
  - by rewrite app_nil_r.
  - rewrite IHd, IHi. by rewrite <- !app_assoc.
Qed.

Lemma obtenerOrdenados_aplanar a : obtenerOrdenados a = aplanar (raiz a).
Proof. unfold obtenerOrdenados. by rewrite inOrden_aplanar. Qed.

Lemma tamano_aplanar t : tamano t = length (aplanar t).
Proof.
  induction t as [|d izq IHi der IHd]; simpl; [done|].
  rewrite length_app. simpl. lia.
Qed.

(** Where the new record lands in the left-to-right sequence: after every
    record whose key is smaller or equal, before every record whose key is
    greater. *)
Lemma insertar_nodo_aplanar t c :
  es_abb t →
  ∃ l1 l2, aplanar t = l1 ++ l2 ∧
           aplanar (insertar_nodo t c) = l1 ++ c :: l2 ∧
           Forall (λ x, antes x c) l1 ∧ Forall (λ x, menor c x) l2.
Proof.
  induction t as [|d izq IHi der IHd]; simpl.
  - intros _. exists [], []. by repeat split.
  - intros (Hi & Hd & Hai & Had).
    destruct (String.ltb (fecha c) (fecha d)) eqn:Hcd; simpl.
    + destruct (IHi Hai) as (l1 & l2 & E1 & E2 & F1 & F2).
      exists l1, (l2 ++ d :: aplanar der). rewrite E1, E2.
      repeat split; [by rewrite <- app_assoc | by rewrite <- app_assoc | done |].
      apply Forall_app. split; [done|]. constructor; [done|].
      eapply Forall_impl; [exact Hd|]. intros x Hx. unfold menor, antes in *.
      by eapply ltb_le_trans.
    + destruct (IHd Had) as (l1 & l2 & E1 & E2 & F1 & F2).
      apply ltb_false_le in Hcd.
      exists (aplanar izq ++ d :: l1), l2. rewrite E1, E2.
      repeat split; [by rewrite <- app_assoc | by rewrite <- app_assoc | | done].
      apply Forall_app. split; [|by constructor].
      eapply Forall_impl; [exact Hi|]. intros x Hx. unfold menor, antes in *.
      etrans; [|exact Hcd]. by apply ltb_true_le.
Qed.

Lemma insertar_nodo_es_abb t c : es_abb t → es_abb (insertar_nodo t c).
Proof.
  induction t as [|d izq IHi der IHd]; simpl.
  - intros _. by repeat split.
  - intros (Hi & Hd & Hai & Had).
    destruct (String.ltb (fecha c) (fecha d)) eqn:Hcd; simpl.
    + repeat split; auto.
      destruct (insertar_nodo_aplanar izq c Hai) as (l1 & l2 & E1 & E2 & _).
      rewrite E2. rewrite E1 in Hi. apply Forall_app in Hi as [H1 H2].
      apply Forall_app. split; [done|]. by constructor.
    + repeat split; auto.
      destruct (insertar_nodo_aplanar der c Had) as (l1 & l2 & E1 & E2 & _).
      rewrite E2. rewrite E1 in Hd. apply Forall_app in Hd as [H1 H2].
      apply Forall_app. split; [done|]. constructor; [|done].
      by apply ltb_false_le.
Qed.

Lemma es_abb_ordenado t : es_abb t → StronglySorted antes (aplanar t).
Proof.
  induction t as [|d izq IHi der IHd]; simpl; [constructor|].
  intros (Hi & Hd & Hai & Had).
  assert (Hizq : ∀ x, x ∈ aplanar izq → antes x d).
  { intros x Hx. rewrite Forall_forall in Hi. by apply ltb_true_le, Hi. }
  induction (aplanar izq) as [|x l IHl]; simpl.
  - constructor; auto.
  - specialize (IHi Hai). apply StronglySorted_inv in IHi as [Hl Hx].
    apply Forall_cons in Hi as [Hxd Hi].
    constructor.
    + apply IHl; auto. intros y Hy. apply Hizq. by right.
    + apply Forall_app. split; [done|]. constructor.
      * apply Hizq. by left.
      * eapply Forall_impl; [exact Hd|]. intros y Hy. unfold antes in *.
        etrans; [|exact Hy]. apply Hizq. by left.
Qed.

Lemma conFecha_insercion k c l1 l2 :
  Forall (λ x, menor c x) l2 →
  conFecha k (l1 ++ c :: l2) = conFecha k ((l1 ++ l2) ++ [c]).
Proof.
  intros F2. unfold conFecha. rewrite !filter_app, !filter_cons, filter_nil.
  destruct (decide (fecha c = k)) as [<-|Hne].
  - assert (filter (λ x, fecha x = fecha c) l2 = []) as ->.
    { induction F2 as [|x l Hx _ IH]; [done|].
      rewrite filter_cons, IH. destruct (decide (fecha x = fecha c)) as [E|]; [|done].
      unfold menor in Hx. rewrite E, ltb_irrefl in Hx. done. }
    by rewrite !app_nil_r.
  - by rewrite !app_nil_r.
Qed.

Lemma subarbol_en_aplanar t : ∀ q d izq der,
  subarbol_en t q = Some (Nodo d izq der) → d ∈ aplanar t.
Proof.
  induction t as [|d0 izq0 IHi der0 IHd]; intros q d izq der Hq.
  - by destruct q as [|[] q].
  - simpl. rewrite elem_of_app, elem_of_cons.
    destruct q as [|[] q]; simpl in Hq.
    + injection Hq as -> _ _. auto.
    + left. by eapply IHi.
    + right. right. by eapply IHd.
Qed.

(** An insertion hangs one new leaf at a place that was empty and changes
    nothing else; the leaf lies in the right subtree of every node whose
    key is the key of the new record. *)
Lemma insertar_nodo_hoja t c :
  es_abb t →
  ∃ p, subarbol_en t p = Some Nulo ∧
       insertar_nodo t c = reemplazar t p (Nodo c Nulo Nulo) ∧
       ∀ q d izq der, subarbol_en t q = Some (Nodo d izq der) →
                      fecha d = fecha c → ∃ r, p = q ++ Der :: r.
Proof.
  induction t as [|d0 izq0 IHi der0 IHd]; simpl.
  - intros _. exists []. repeat split. intros q d izq der Hq. by destruct q as [|[] q].
  - intros (Hi & Hd & Hai & Had).
    destruct (String.ltb (fecha c) (fecha d0)) eqn:Hcd.
    + destruct (IHi Hai) as (p & Hp & E & Hq). exists (Izq :: p). simpl.
      split; [done|]. split; [by rewrite E|].
      intros q d izq der Hsub Hfd. destruct q as [|[] q]; simpl in Hsub.
      * injection Hsub as -> _ _. rewrite Hfd, ltb_irrefl in Hcd. done.
      * destruct (Hq q d izq der Hsub Hfd) as [r ->]. by exists r.
      * apply subarbol_en_aplanar in Hsub. rewrite Forall_forall in Hd.
        specialize (Hd d Hsub). unfold antes in Hd. rewrite Hfd in Hd.
        apply ltb_false_le in Hd. congruence.
    + destruct (IHd Had) as (p & Hp & E & Hq). exists (Der :: p). simpl.
      split; [done|]. split; [by rewrite E|].
      intros q d izq der Hsub Hfd. destruct q as [|[] q]; simpl in Hsub.
      * by exists p.
      * apply subarbol_en_aplanar in Hsub. rewrite Forall_forall in Hi.
        specialize (Hi d Hsub). unfold menor in Hi. rewrite Hfd in Hi. congruence.
      * destruct (Hq q d izq der Hsub Hfd) as [r ->]. by exists r.
Qed.

End Arbol.

(** ** Words of a text *)

Module Palabras.

Lemma lista_app s1 s2 : lista (s1 +:+ s2) = lista s1 ++ lista s2.
Proof.
  unfold String.app.
  induction s1 as [|ch s1 IH]; simpl; [done|]. unfold lista in *. simpl. by f_equal.
Qed.

Lemma lista_inj s1 s2 : lista s1 = lista s2 → s1 = s2.
Proof.
  intros H. rewrite <- (String.string_of_list_ascii_of_string s1),
    <- (String.string_of_list_ascii_of_string s2). unfold lista in H. by rewrite H.
Qed.

Lemma lista_nil s : lista s = [] ↔ s = EmptyString.
Proof. destruct s; simpl; split; done. Qed.

Lemma borde_izq_nil : borde_izq [].
Proof. exact I. Qed.

Lemma borde_der_nil : borde_der [].
Proof. exact I. Qed.

Lemma borde_izq_alnum pre : borde_izq pre → Forall alnum pre → pre = [].
Proof.
  unfold borde_izq. intros Hb Hall. destruct (last pre) as [ch|] eqn:E.
  - apply last_Some in E as [l' ->]. apply Forall_app in Hall as [_ Hch].
    apply Forall_cons in Hch as [Hch _]. unfold alnum in Hch. congruence.
  - by apply last_None.
Qed.

Lemma borde_der_alnum post : borde_der post → Forall alnum post → post = [].
Proof.
  unfold borde_der. intros Hb Hall. destruct post as [|ch post]; [done|].
  simpl in Hb. apply Forall_cons in Hall as [Hch _]. unfold alnum in Hch. congruence.
Qed.

(** A text made of alphanumeric characters only is its one maximal run. *)
Lemma corrida_alnum w t : Forall alnum t → corrida_maximal w t → w = t.
Proof.
  intros Ht (_ & _ & pre & post & -> & Hi & Hd).
  apply Forall_app in Ht as [Hpre Ht]. apply Forall_app in Ht as [_ Hpost].
  rewrite (borde_izq_alnum pre), (borde_der_alnum post) by done.
  simpl. by rewrite app_nil_r.
Qed.

Lemma corrida_propia t : t ≠ [] → Forall alnum t → corrida_maximal t t.
Proof.
  intros Hne Ht. repeat split; [done..|]. exists [], []. simpl.
  rewrite app_nil_r. repeat split; done.
Qed.

Lemma corrida_nil w : ¬ corrida_maximal w [].
Proof.
  intros H. assert (w = []) by (apply corrida_alnum; [constructor|done]).
  by destruct H as [? _].
Qed.

(** A character that is not alphanumeric separates the runs on its left
    from the runs on its right. *)
Lemma corrida_separador w t1 c t2 :
  isalnum c = false →
  corrida_maximal w (t1 ++ c :: t2) ↔ corrida_maximal w t1 ∨ corrida_maximal w t2.
Proof.
  intros Hc. split.
  - intros (Hne & Hw & pre & post & E & Hi & Hd).
    apply app_eq_inv in E as [(k & E1 & E2) | (k & E1 & E2)].
    + apply app_eq_inv in E2 as [(k' & E3 & E4) | (k' & E3 & E4)].
      * destruct k' as [|a k'']; simpl in E4.
        -- left. rewrite app_nil_r in E3. subst k.
           repeat split; [done..|]. exists pre, []. rewrite app_nil_r. by repeat split.
        -- injection E4 as <- _. rewrite E3 in Hw.
           apply Forall_app in Hw as [_ Hw]. apply Forall_cons in Hw as [Hw _].
           unfold alnum in Hw. congruence.
      * left. repeat split; [done..|]. exists pre, k'. subst k. repeat split; [done..|].
        destruct k' as [|a k'']; [done|]. by rewrite E4 in Hd.
    + destruct k as [|a k']; simpl in E2.
      * destruct w as [|a w']; [done|]. injection E2 as <- _.
        apply Forall_cons in Hw as [Hw _]. unfold alnum in Hw. congruence.
      * injection E2 as <- E2. right. repeat split; [done..|]. exists k', post.
        repeat split; [done| |done].
        unfold borde_izq in *. rewrite E1, last_app, last_cons in Hi.
        by destruct (last k').
  - intros [(Hne & Hw & pre & post & -> & Hi & Hd) | (Hne & Hw & pre & post & -> & Hi & Hd)].
    + repeat split; [done..|]. exists pre, (post ++ c :: t2).
      rewrite <- !app_assoc. repeat split; [done|].
      unfold borde_der in *. rewrite head_app. by destruct (head post).
    + repeat split; [done..|]. exists (t1 ++ c :: pre), post.
      rewrite <- !app_assoc. repeat split; [|done].
      unfold borde_izq in *. rewrite last_app, last_cons. by destruct (last pre).
Qed.

(** The loop collects exactly the maximal runs. *)
Lemma palabras_corridas texto : ∀ acc w,
  Forall alnum (lista acc) →
  w ∈ palabras acc texto ↔ corrida_maximal (lista w) (lista acc ++ lista texto).
Proof.
  induction texto as [|ch resto IH]; intros acc w Hacc; simpl.
  - change (lista EmptyString) with (@nil ascii). rewrite app_nil_r. case_decide as Hv.
    + subst acc. simpl. split; [by intros ?%elem_of_nil|]. by intros ?%corrida_nil.
    + rewrite list_elem_of_singleton. split.
      * intros ->. apply corrida_propia; [|done]. by rewrite lista_nil.
      * intros H. by apply lista_inj, corrida_alnum.
  - change (lista (String ch resto)) with (ch :: lista resto).
    destruct (isalnum ch) eqn:Hch.
    + rewrite IH.
      * by rewrite lista_app, <- app_assoc.
      * rewrite lista_app. apply Forall_app. split; [done|]. by repeat constructor.
    + rewrite (corrida_separador _ _ _ _ Hch). case_decide as Hv.
      * subst acc. rewrite (IH EmptyString w) by constructor. simpl. split; [tauto|].
        intros [?%corrida_nil|?]; done.
      * rewrite elem_of_cons, (IH EmptyString w) by constructor. simpl.
        split; intros [H|H]; auto.
        -- subst w. left. apply corrida_propia; [|done]. by rewrite lista_nil.
        -- left. by apply lista_inj, corrida_alnum.
Qed.

Lemma palabras_token texto w : w ∈ palabras EmptyString texto ↔ es_token w texto.
Proof. by rewrite palabras_corridas by constructor. Qed.

Lemma tiene_marcar m i p j q :
  tiene (marcar m i p) j q ↔ tiene m j q ∨ (j = i ∧ q = p).
Proof.
  unfold tiene, marcar. destruct (decide (j = i)) as [->|Hji].
  - rewrite lookup_insert_eq. split.
    + intros (fila & [= <-] & Hq). destruct (decide (q = p)) as [->|Hqp]; [by right|].
      left. rewrite lookup_insert_ne in Hq by done.
      destruct (m !! i) as [f|]; simpl in *; [by exists f|].
      rewrite lookup_empty in Hq. by destruct Hq.
    + intros [(fila & E & Hq) | [_ ->]].
      * eexists. split; [done|]. rewrite E. simpl.
        destruct (decide (p = q)) as [->|]; [by rewrite lookup_insert_eq|].
        by rewrite lookup_insert_ne.
      * eexists. split; [done|]. by rewrite lookup_insert_eq.
  - rewrite lookup_insert_ne by done. split; [by left|]. by intros [?|[? _]].
Qed.

(** What [crearCorreo] has added to the matrix once its loop and the
    final test on [palabra] are done. *)
Lemma indexar_tiene texto : ∀ i pal m pal' m',
  indexar texto i pal m = (pal', m') →
  ∀ j q, tiene (if decide (pal' = EmptyString) then m' else marcar m' i pal') j q ↔
         tiene m j q ∨ (j = i ∧ q ∈ palabras pal texto).
Proof.
  induction texto as [|ch resto IH]; intros i pal m pal' m' E j q; simpl in *.
  - injection E as <- <-. destruct (decide (pal = EmptyString)).
    + rewrite elem_of_nil. tauto.
    + rewrite tiene_marcar, list_elem_of_singleton. tauto.
  - destruct (isalnum ch); [by apply IH|].
    destruct (decide (pal = EmptyString)) as [->|]; [by apply IH|].
    rewrite (IH _ _ _ _ _ E), tiene_marcar, elem_of_cons. tauto.
Qed.

End Palabras.

(** ** The state after a sequence of creations *)

Module Indices.
Import Arbol Palabras.

Lemma wrap32_pequeno z : - 2 ^ 31 ≤ z < 2 ^ 31 → wrap32 z = z.
Proof. intros Hz. unfold wrap32. rewrite Z.mod_small; lia. Qed.

Lemma wrap32_suma a b : wrap32 (wrap32 a + b) = wrap32 (a + b).
Proof.
  unfold wrap32. f_equal.
  replace ((a + 2 ^ 31) `mod` 2 ^ 32 - 2 ^ 31 + b + 2 ^ 31)
    with ((a + 2 ^ 31) `mod` 2 ^ 32 + b) by lia.
  rewrite Zplus_mod_idemp_l. f_equal. lia.
Qed.

Lemma id_de_pequeno k : Z.of_nat k < INT_MAX → id_de k = Z.of_nat k + 1.
Proof.
  unfold id_de, INT_MAX. intros Hk. rewrite wrap32_pequeno; lia.
Qed.

Lemma id_de_S k : wrap32 (id_de k + 1) = id_de (S k).
Proof. unfold id_de. rewrite wrap32_suma. f_equal. lia. Qed.

Lemma marcar_filas m i p j :
  is_Some (marcar m i p !! j) → is_Some (m !! j) ∨ j = i.
Proof.
  unfold marcar. destruct (decide (j = i)) as [->|]; [by right|].
  rewrite lookup_insert_ne by done. by left.
Qed.

Lemma indexar_filas texto : ∀ i pal m pal' m',
  indexar texto i pal m = (pal', m') →
  ∀ j, is_Some ((if decide (pal' = EmptyString) then m' else marcar m' i pal') !! j) →
       is_Some (m !! j) ∨ j = i.
Proof.
  induction texto as [|ch resto IH]; intros i pal m pal' m' E j; simpl in *.
  - injection E as <- <-. destruct (decide (pal = EmptyString)); [by left|].
    apply marcar_filas.
  - destruct (isalnum ch); [by eapply IH|].
    destruct (decide (pal = EmptyString)); [by eapply IH|].
    intros H. destruct (IH _ _ _ _ _ E j H) as [H'|]; [|by right].
    by apply marcar_filas in H'.
Qed.

Lemma inv_globales_inicial : inv_globales [] globales_iniciales.
Proof.
  split; simpl; try done.
  - intros i p. split.
    + intros (fila & E & _). by rewrite lookup_empty in E.
    + intros (c & Hc & _). by apply elem_of_nil in Hc.
  - intros i [x Hx]. by rewrite lookup_empty in Hx.
Qed.

Lemma crearCorreo_campos g rem asu cue fec :
  (crearCorreo g rem asu cue fec).1 = mkCorreo (nextID g) rem asu cue fec.
Proof. unfold crearCorreo. by destruct (indexar _ _ _ _). Qed.

Lemma crearCorreo_inv cs g rem asu cue fec :
  inv_globales cs g →
  inv_globales (cs ++ [(crearCorreo g rem asu cue fec).1])
               (crearCorreo g rem asu cue fec).2.
Proof.
  intros [Hn Hids Hrem Hid Hmat Hfil]. rewrite crearCorreo_campos.
  unfold crearCorreo.
  destruct (indexar _ _ _ _) as [pal' m'] eqn:E. simpl in E. simpl.
  set (c := mkCorreo (nextID g) rem asu cue fec).
  split; simpl.
  - rewrite length_app. simpl. rewrite Hn, id_de_S. f_equal. lia.
  - rewrite length_app, fmap_app, Hids. simpl.
    replace (length cs + 1)%nat with (S (length cs)) by lia.
    rewrite seq_S, fmap_app. simpl. by rewrite Hn.
  - intros r. rewrite filter_app, <- Hrem. unfold buscarRemitente. simpl.
    rewrite filter_cons, filter_nil. simpl.
    destruct (decide (rem = r)) as [->|Hne].
    + rewrite lookup_insert_eq. by destruct (correosPorRemitente g !! r).
    + rewrite lookup_insert_ne by done. by rewrite app_nil_r.
  - intros i. rewrite filter_app, filter_cons, filter_nil. simpl.
    destruct (decide (nextID g = i)) as [->|Hne].
    + by rewrite lookup_insert_eq, last_snoc.
    + rewrite lookup_insert_ne by done. by rewrite app_nil_r.
  - intros i p. rewrite (indexar_tiene _ _ _ _ _ _ E), Hmat, palabras_token.
    split.
    + intros [(c' & Hc' & Hi & Ht) | [-> Ht]].
      * exists c'. rewrite elem_of_app. auto.
      * exists c. rewrite elem_of_app, list_elem_of_singleton. auto.
    + intros (c' & Hc' & Hi & Ht).
      apply elem_of_app in Hc' as [Hc'|Hc'%list_elem_of_singleton].
      * left. by exists c'.
      * subst c'. right. auto.
  - intros i Hi. destruct (indexar_filas _ _ _ _ _ _ E i Hi) as [H| ->].
    + destruct (Hfil i H) as (c' & Hc' & Hi'). exists c'. rewrite elem_of_app. auto.
    + exists c. rewrite elem_of_app, list_elem_of_singleton. auto.
Qed.

Lemma inv_arbol_inicial : inv_arbol [] arbol_vacio.
Proof. by split. Qed.

Lemma insertar_inv cs a c : inv_arbol cs a → inv_arbol (cs ++ [c]) (insertar a c).
Proof.
  intros [Habb Hperm Hfecha]. simpl.
  destruct (insertar_nodo_aplanar (raiz a) c Habb) as (l1 & l2 & E1 & E2 & F1 & F2).
  split; simpl.
  - by apply insertar_nodo_es_abb.
  - rewrite E2, <- Hperm, E1. by rewrite <- Permutation_middle, Permutation_cons_append.
  - intros k. rewrite E2, (conFecha_insercion k c l1 l2 F2), <- E1.
    unfold conFecha in *. by rewrite !filter_app, Hfecha.
Qed.

Lemma ingresar_campos s e :
  (ingresar s e).1 =
  mkCorreo (nextID (globales s)) e.1.1.1 e.1.1.2 e.1.2 e.2.
Proof.
  destruct e as [[[rem asu] cue] fec]. unfold ingresar.
  pose proof (crearCorreo_campos (globales s) rem asu cue fec) as H.
  destruct (crearCorreo _ _ _ _ _). simpl in *. by rewrite H.
Qed.

Lemma ingresar_inv cs s e :
  inv cs s → inv (cs ++ [(ingresar s e).1]) (ingresar s e).2.
Proof.
  intros [Hg Ha]. destruct e as [[[rem asu] cue] fec]. unfold ingresar.
  pose proof (crearCorreo_inv cs _ rem asu cue fec Hg) as Hg'.
  destruct (crearCorreo _ _ _ _ _) as [c g']. simpl in *.
  split; simpl; [done|]. by apply insertar_inv.
Qed.

Lemma ingresar_todos_inv es : ∀ cs0 s,
  inv cs0 s →
  inv (cs0 ++ (ingresar_todos s es).1) (ingresar_todos s es).2.
Proof.
  induction es as [|e es IH]; intros cs0 s Hinv; simpl.
  - by rewrite app_nil_r.
  - pose proof (ingresar_inv cs0 s e Hinv) as H1.
    destruct (ingresar s e) as [c s1]. simpl in H1.
    specialize (IH _ _ H1).
    destruct (ingresar_todos s1 es) as [cs s2]. simpl in *.
    by rewrite <- app_assoc in IH.
Qed.

Lemma ingresar_todos_campos es : ∀ s,
  campos <$> (ingresar_todos s es).1 = es.
Proof.
  induction es as [|e es IH]; intros s; simpl; [done|].
  pose proof (ingresar_campos s e) as H1.
  destruct (ingresar s e) as [c s1]. simpl in H1.
  specialize (IH s1). destruct (ingresar_todos s1 es) as [cs s2].
  cbn [fst] in *. rewrite fmap_cons, IH, H1. by destruct e as [[[rem asu] cue] fec].
Qed.

Lemma estado_inv es : inv (creados es) (estado es).
Proof.
  apply (ingresar_todos_inv es [] sistema_inicial).
  split; [apply inv_globales_inicial | apply inv_arbol_inicial].
Qed.

Lemma creados_campos es : campos <$> creados es = es.
Proof. apply ingresar_todos_campos. Qed.

Lemma creados_length es : length (creados es) = length es.
Proof. by rewrite <- (creados_campos es) at 2; rewrite length_fmap. Qed.

(** The loader adds the lines that have a sender, in order, and nothing
    else. *)
Lemma cargar_omite_vacias lineas : ∀ s,
  cargarCorreosDesdeArchivo (Some lineas) s =
  cargarCorreosDesdeArchivo
    (Some (filter (λ l, (getline l ";").1 ≠ EmptyString) lineas)) s.
Proof.
  induction lineas as [|l lineas IH]; intros s; [done|].
  rewrite filter_cons. simpl in *. case_decide as Hl.
  - simpl. apply IH.
  - rewrite IH. f_equal.
    unfold procesarLinea. destruct (getline l ";") as [rem ss1].
    simpl in Hl. subst rem. destruct (getline ss1 ";") as [asu ss2].
    destruct (getline ss2 ";") as [cue ss3]. by destruct (getline ss3 ";").
Qed.

End Indices.

(** ** The searches on a reached state *)

Module Consultas.
Import Arbol Palabras Indices.

Lemma filtro_unico {A B} `{EqDecision B} (f : A → B) (l : list A) (c : A) :
  NoDup (f <$> l) → c ∈ l → filter (λ x, f x = f c) l = [c].
Proof.
  induction l as [|x l IH]; intros Hnd Hc; [by apply elem_of_nil in Hc|].
  rewrite fmap_cons in Hnd. apply NoDup_cons in Hnd as [Hx Hnd].
  rewrite filter_cons. apply elem_of_cons in Hc as [->|Hc].
  - rewrite decide_True by done. f_equal.
    apply elem_of_nil_inv. intros y [Hy Hyl]%list_elem_of_filter.
    apply Hx. rewrite <- Hy. by apply list_elem_of_fmap_2.
  - rewrite decide_False; [by apply IH|].
    intros E. apply Hx. rewrite E. by apply list_elem_of_fmap_2.
Qed.

(** While the counter has not left the range of [int], the identifiers are
    1, 2, 3, ... in creation order. *)
Lemma creados_ids es :
  Z.of_nat (length es) ≤ INT_MAX →
  id <$> creados es = seqZ 1 (Z.of_nat (length es)).
Proof.
  intros Hn. destruct (estado_inv es) as [[_ Hids _ _ _ _] _].
  rewrite Hids, creados_length. unfold seqZ. rewrite Nat2Z.id.
  apply Forall_fmap_ext, Forall_forall. intros k Hk%elem_of_seq.
  rewrite id_de_pequeno by lia. lia.
Qed.

Lemma creados_ids_NoDup es :
  Z.of_nat (length es) ≤ INT_MAX → NoDup (id <$> creados es).
Proof. intros Hn. rewrite creados_ids by done. apply NoDup_seqZ. Qed.

Lemma correosPorID_creado es c :
  Z.of_nat (length es) ≤ INT_MAX →
  c ∈ creados es → correosPorID (globales (estado es)) !! id c = Some c.
Proof.
  intros Hn Hc. destruct (estado_inv es) as [[_ _ _ Hid _ _] _].
  rewrite Hid, (filtro_unico id) by auto using creados_ids_NoDup. done.
Qed.

Lemma correosPorID_Some es i c :
  correosPorID (globales (estado es)) !! i = Some c → c ∈ creados es ∧ id c = i.
Proof.
  destruct (estado_inv es) as [[_ _ _ Hid _ _] _]. rewrite Hid.
  intros [l' E]%last_Some.
  assert (c ∈ filter (λ c, id c = i) (creados es)) as [? ?]%list_elem_of_filter; [|done].
  rewrite E, elem_of_app, list_elem_of_singleton. auto.
Qed.

Lemma resultados_tiene g w i :
  i ∈ resultados g w ↔ tiene (matrizDispersa g) i (aMinusculas w).
Proof.
  unfold resultados, tiene. rewrite list_elem_of_fmap. split.
  - intros ([j fila] & -> & [Hp Hin%elem_of_map_to_list]%list_elem_of_filter).
    by exists fila.
  - intros (fila & E & Hp). exists (i, fila). split; [done|].
    apply list_elem_of_filter. split; [done|]. by apply elem_of_map_to_list.
Qed.

End Consultas.

(** ** The model on small inputs *)

Example tolower_ejemplo : aMinusculas "Hi THERE, x9!" = "hi there, x9!".
Proof. reflexivity. Qed.

Example palabras_ejemplo :
  palabras EmptyString (aMinusculas "Hi, Hi there -- x9!") = ["hi"; "hi"; "there"; "x9"].
Proof. reflexivity. Qed.

Example fechas_ejemplo :
  String.ltb "2025-01-01" "2025-01-02" = true ∧
  String.ltb "2025-01-02" "2025-01-02" = false ∧
  String.ltb "2025-1-2" "2025-01-02" = false.
Proof. by vm_compute. Qed.

Example wrap32_ejemplo : wrap32 (INT_MAX + 1) = -2147483648 ∧ wrap32 (1 + 1) = 2.
Proof. by vm_compute. Qed.

Example getline_ejemplo :
  getline "a@x.com;Hi;Hi there;2025-01-02" ";" = ("a@x.com", "Hi;Hi there;2025-01-02") ∧
  getline "sin separador" ";" = ("sin separador", EmptyString).
Proof. by vm_compute. Qed.

Example cargar_ejemplo :
  verOrdenados (cargarCorreosDesdeArchivo
                  (Some ["a@x.com;Hi;Hi there;2025-01-02"; ";Zz;nada;2024-01-01";
                         "b@x.com;Yo;Hi all;2025-01-01"]) sistema_inicial)
  = [correo_b; correo_a].
Proof. by vm_compute. Qed.

(** * The properties of the index *)

Import Arbol Palabras Indices Consultas.



(** C2. The list shown by [verOrdenados] holds the created records, sorted
    by non-decreasing date key; records with the same date key come in the
    order in which they were created. *)
Theorem verOrdenados_ordenado (es : list Entrada) :
  StronglySorted antes (verOrdenados (estado es)) ∧
  verOrdenados (estado es) ≡ₚ creados es ∧
  ∀ k, conFecha k (verOrdenados (estado es)) = conFecha k (creados es).
Proof.
  destruct (estado_inv es) as [_ [Habb Hperm Hfecha]].
  unfold verOrdenados. rewrite obtenerOrdenados_aplanar.
  split; [by apply es_abb_ordenado|]. by split.
Qed.

(** C3, as amended.  The tree never merges.  After any sequence of
    insertions every key of a left subtree is strictly smaller than the
    key of the node and every key of a right subtree is greater than or
    equal to it, and the tree has one node per record.  An insertion
    creates one node, a leaf hung at a place that was empty, and changes
    nothing else in the tree; the new leaf lies in the right subtree of
    every node whose date key equals the key of the new record, so that
    equal keys sit in distinct nodes. *)
Theorem arbol_orden (es : list Entrada) :
  es_abb (raiz (arbol (estado es))) ∧
  tamano (raiz (arbol (estado es))) = length es ∧
  (∀ d izq der i rem asu cue,
    insertar_nodo (Nodo d izq der) (mkCorreo i rem asu cue (fecha d)) =
    Nodo d izq (insertar_nodo der (mkCorreo i rem asu cue (fecha d)))) ∧
  ∀ c, ∃ p,
    subarbol_en (raiz (arbol (estado es))) p = Some Nulo ∧
    raiz (insertar (arbol (estado es)) c) =
      reemplazar (raiz (arbol (estado es))) p (Nodo c Nulo Nulo) ∧
    ∀ q d izq der,
      subarbol_en (raiz (arbol (estado es))) q = Some (Nodo d izq der) →
      fecha d = fecha c → ∃ r, p = q ++ Der :: r.
Proof.
  destruct (estado_inv es) as [_ [Habb Hperm _]]. split; [done|]. split; [|split].
  - by rewrite tamano_aplanar, Hperm, creados_length.
  - intros. simpl. by rewrite ltb_irrefl.
  - intros c. apply insertar_nodo_hoja, Habb.
Qed.

(** The third of three records, with the date key of the second, goes
    below the second one, to its right. *)
Example arbol_tres_correos :
  raiz (arbol (estado [("a@x.com", "Hi", "uno", "2025-01-01");
                       ("b@x.com", "Yo", "dos", "2025-01-02");
                       ("c@x.com", "Eh", "tres", "2025-01-02")])) =
  Nodo (mkCorreo 1 "a@x.com" "Hi" "uno" "2025-01-01") Nulo
    (Nodo (mkCorreo 2 "b@x.com" "Yo" "dos" "2025-01-02") Nulo
       (Nodo (mkCorreo 3 "c@x.com" "Eh" "tres" "2025-01-02") Nulo Nulo)).
Proof. by vm_compute. Qed.

(** C3, the claim as stated fails: two records with the same date key
    make two nodes, the second one in the right subtree of the first. *)
Lemma arbol_claves_repetidas :
  raiz (arbol (estado [("a@x.com", "Hi", "Hi there", "2025-01-02");
                       ("b@x.com", "Yo", "Hi all", "2025-01-02")])) =
    Nodo (mkCorreo 1 "a@x.com" "Hi" "Hi there" "2025-01-02") Nulo
      (Nodo (mkCorreo 2 "b@x.com" "Yo" "Hi all" "2025-01-02") Nulo Nulo) ∧
  ¬ NoDup (claves (raiz (arbol (estado
             [("a@x.com", "Hi", "Hi there", "2025-01-02");
              ("b@x.com", "Yo", "Hi all", "2025-01-02")])))).
Proof.
  split; [by vm_compute|].
  intros H. vm_compute in H. apply NoDup_cons in H as [H _].
  apply H. by left.
Qed.

(** C4, as amended.  The check on the sender is made by the file loader,
    not by the creation: a line whose first field is empty is skipped
    without calling [crearCorreo], so that the counter, the tree and the
    three maps are left as they were.  A creation with an empty sender does
    not fail: the record takes the current value of the counter, the
    counter moves on, and the record is stored under its identifier and
    appended to the list of the empty sender. *)
Theorem remitente_vacio (s : Sistema) (linea asu cue fec : string) :
  (getline linea ";").1 = EmptyString →
  procesarLinea s linea = s ∧
  let r := ingresar s (EmptyString, asu, cue, fec) in
  r.1 = mkCorreo (nextID (globales s)) EmptyString asu cue fec ∧
  nextID (globales r.2) = wrap32 (nextID (globales s) + 1) ∧
  correosPorID (globales r.2) !! id r.1 = Some r.1 ∧
  buscarRemitente (globales r.2) EmptyString =
    buscarRemitente (globales s) EmptyString ++ [r.1].
Proof.
  intros Hrem. split.
  - unfold procesarLinea. destruct (getline linea ";") as [rem ss1].
    simpl in Hrem. subst rem. destruct (getline ss1 ";") as [asu' ss2].
    destruct (getline ss2 ";") as [cue' ss3]. by destruct (getline ss3 ";").
  - unfold ingresar, crearCorreo, buscarRemitente.
    destruct (indexar _ _ _ _) as [pal' m']. simpl.
    rewrite !lookup_insert_eq. by repeat split.
Qed.

Lemma remitente_vacio_witness :
  (getline ";Hi;Hi there;2025-01-02" ";").1 = EmptyString ∧
  procesarLinea (estado [entrada_a]) ";Hi;Hi there;2025-01-02"
    = estado [entrada_a] ∧
  let r := ingresar (estado [entrada_a])
             (EmptyString, "Hi", "Hi there", "2025-01-02") in
  r.1 = mkCorreo (nextID (globales (estado [entrada_a]))) EmptyString
          "Hi" "Hi there" "2025-01-02" ∧
  nextID (globales r.2) = wrap32 (nextID (globales (estado [entrada_a])) + 1) ∧
  correosPorID (globales r.2) !! id r.1 = Some r.1 ∧
  buscarRemitente (globales r.2) EmptyString =
    buscarRemitente (globales (estado [entrada_a])) EmptyString ++ [r.1].
Proof.
  assert (H : (getline ";Hi;Hi there;2025-01-02" ";").1 = EmptyString)
    by reflexivity.
  split; [exact H|].
  exact (remitente_vacio (estado [entrada_a]) _ "Hi" "Hi there" "2025-01-02" H).
Defined.

(** C4, the claim as stated fails: a creation with an empty sender
    succeeds, takes the identifier 1 and moves the counter to 2, and the
    record shows up in the three searches. *)
Lemma crearCorreo_remitente_vacio :
  let r := ingresar sistema_inicial (EmptyString, "Hi", "Hi there", "2025-01-02") in
  r.1 = mkCorreo 1 EmptyString "Hi" "Hi there" "2025-01-02" ∧
  nextID (globales sistema_inicial) = 1 ∧ nextID (globales r.2) = 2 ∧
  verOrdenados sistema_inicial = [] ∧ verOrdenados r.2 = [r.1] ∧
  buscarRemitente (globales sistema_inicial) EmptyString = [] ∧
  buscarRemitente (globales r.2) EmptyString = [r.1] ∧
  buscarPalabra (globales sistema_inicial) "hi" = [] ∧
  buscarPalabra (globales r.2) "hi" = [r.1].
Proof. by vm_compute. Qed.

(** C5. A search by sender lists exactly the created records whose sender
    is the very string asked for, in creation order (so nothing when no
    record has this sender). *)
Theorem buscarRemitente_correcto (es : list Entrada) (r : string) :
  buscarRemitente (globales (estado es)) r =
  filter (λ c, remitente c = r) (creados es).
Proof. destruct (estado_inv es) as [[_ _ Hrem _ _ _] _]. apply Hrem. Qed.

(** C6. A record just created is the one found under its identifier, and
    it carries the fields it was created from. *)
Theorem abrirCorreo_creado (es : list Entrada) (e : Entrada) :
  Z.of_nat (length es) < INT_MAX →
  abrirCorreo (globales (ingresar (estado es) e).2) (id (ingresar (estado es) e).1)
    = Some (ingresar (estado es) e).1 ∧
  campos (ingresar (estado es) e).1 = e.
Proof.
  intros Hn. destruct (estado_inv es) as [[Hnext _ _ _ _ _] _].
  rewrite creados_length, id_de_pequeno in Hnext by done.
  rewrite ingresar_campos. destruct e as [[[rem asu] cue] fec].
  split; [|done]. unfold ingresar.
  pose proof (crearCorreo_campos (globales (estado es)) rem asu cue fec) as Hc.
  unfold crearCorreo in *. destruct (indexar _ _ _ _) as [pal' m']. simpl in *.
  unfold abrirCorreo. simpl. rewrite decide_True by lia. by rewrite lookup_insert_eq.
Qed.

Lemma abrirCorreo_creado_witness :
  Z.of_nat (length [entrada_a]) < INT_MAX ∧
  abrirCorreo (globales (ingresar (estado [entrada_a]) entrada_b).2)
      (id (ingresar (estado [entrada_a]) entrada_b).1)
    = Some (ingresar (estado [entrada_a]) entrada_b).1 ∧
  campos (ingresar (estado [entrada_a]) entrada_b).1 = entrada_b.
Proof.
  assert (H : Z.of_nat (length [entrada_a]) < INT_MAX) by reflexivity.
  split; [exact H|]. exact (abrirCorreo_creado [entrada_a] entrada_b H).
Defined.

(** C7. While the number of creations fits in an [int], the identifiers
    given out are 1, 2, ..., n in creation order, no two records share one,
    and a record can be opened under [i] exactly when [1 <= i <= n]. *)
Theorem ids_consecutivos (es : list Entrada) :
  Z.of_nat (length es) ≤ INT_MAX →
  id <$> creados es = seqZ 1 (Z.of_nat (length es)) ∧
  NoDup (id <$> creados es) ∧
  ∀ i, is_Some (abrirCorreo (globales (estado es)) i) ↔
       1 ≤ i ≤ Z.of_nat (length es).
Proof.
  intros Hn. split; [by apply creados_ids|]. split; [by apply creados_ids_NoDup|].
  intros i. destruct (estado_inv es) as [[_ _ _ Hid _ _] _].
  assert (Hi : is_Some (correosPorID (globales (estado es)) !! i) ↔
               1 ≤ i ≤ Z.of_nat (length es)).
  { transitivity (i ∈ id <$> creados es).
    - rewrite list_elem_of_fmap. split.
      + intros [c [Hc <-]%correosPorID_Some]. by exists c.
      + intros (c & -> & Hc). exists c. by apply correosPorID_creado.
    - rewrite creados_ids, elem_of_seqZ by done. lia. }
  unfold abrirCorreo. case_decide as H0; [done|].
  split; [by intros [? ?]|]. lia.
Qed.

Lemma ids_consecutivos_witness :
  Z.of_nat (length [entrada_a; entrada_b]) ≤ INT_MAX ∧
  id <$> creados [entrada_a; entrada_b] =
    seqZ 1 (Z.of_nat (length [entrada_a; entrada_b])) ∧
  NoDup (id <$> creados [entrada_a; entrada_b]) ∧
  ∀ i, is_Some (abrirCorreo (globales (estado [entrada_a; entrada_b])) i) ↔
       1 ≤ i ≤ Z.of_nat (length [entrada_a; entrada_b]).
Proof.
  assert (H : Z.of_nat (length [entrada_a; entrada_b]) ≤ INT_MAX)
    by (vm_compute; discriminate).
  split; [exact H|]. exact (ids_consecutivos [entrada_a; entrada_b] H).
Defined.

(** C8, as amended.  The tree and the sender map store whole records, the
    matrix stores identifiers.  No operation changes a stored record, so,
    while identifiers are not exhausted, every record held by the tree or
    by the sender map is equal to the one [correosPorID] holds under the
    same identifier, and every row of the matrix is the row of an
    identifier that [correosPorID] knows. *)
Theorem copias_coherentes (es : list Entrada) :
  Z.of_nat (length es) ≤ INT_MAX →
  (∀ c, c ∈ verOrdenados (estado es) →
        correosPorID (globales (estado es)) !! id c = Some c) ∧
  (∀ r lista c, correosPorRemitente (globales (estado es)) !! r = Some lista →
        c ∈ lista → correosPorID (globales (estado es)) !! id c = Some c) ∧
  (∀ i, is_Some (matrizDispersa (globales (estado es)) !! i) →
        is_Some (correosPorID (globales (estado es)) !! i)).
Proof.
  intros Hn. destruct (estado_inv es) as [[_ _ Hrem _ _ Hfil] [_ Hperm _]].
  split; [|split].
  - intros c Hc. apply correosPorID_creado; [done|].
    unfold verOrdenados in Hc. by rewrite obtenerOrdenados_aplanar, Hperm in Hc.
  - intros r lista c Hr Hc. apply correosPorID_creado; [done|].
    specialize (Hrem r). unfold buscarRemitente in Hrem. rewrite Hr in Hrem.
    rewrite Hrem in Hc. by apply list_elem_of_filter in Hc as [_ ?].
  - intros i (c & Hc & <-)%Hfil. exists c. by apply correosPorID_creado.
Qed.

Lemma copias_coherentes_witness :
  Z.of_nat (length [entrada_a; entrada_b]) ≤ INT_MAX ∧
  (∀ c, c ∈ verOrdenados (estado [entrada_a; entrada_b]) →
        correosPorID (globales (estado [entrada_a; entrada_b])) !! id c = Some c) ∧
  (∀ r lista c,
        correosPorRemitente (globales (estado [entrada_a; entrada_b])) !! r
          = Some lista →
        c ∈ lista →
        correosPorID (globales (estado [entrada_a; entrada_b])) !! id c = Some c) ∧
  (∀ i, is_Some (matrizDispersa (globales (estado [entrada_a; entrada_b])) !! i) →
        is_Some (correosPorID (globales (estado [entrada_a; entrada_b])) !! i)).
Proof.
  assert (H : Z.of_nat (length [entrada_a; entrada_b]) ≤ INT_MAX)
    by (vm_compute; discriminate).
  split; [exact H|]. exact (copias_coherentes [entrada_a; entrada_b] H).
Defined.

(** C8, the claim as stated fails: two runs that create one record each,
    with the same identifier, sender and date key but another body, leave
    different trees and different sender maps: both hold the record
    itself. *)
Lemma indices_guardan_copias : ¬ solo_identificadores.
Proof.
  intros H.
  destruct (H [("a@x.com", "Hi", "uno", "2025-01-02")]
              [("a@x.com", "Hi", "dos", "2025-01-02")]) as [Ha Hr].
  - by vm_compute.
  - vm_compute in Ha. discriminate Ha.
Qed.

(** C9. The scenario of two records. *)
Theorem escenario :
  creados [entrada_a; entrada_b] = [correo_a; correo_b] ∧
  verOrdenados (estado [entrada_a; entrada_b]) = [correo_b; correo_a] ∧
  buscarRemitente (globales (estado [entrada_a; entrada_b])) "a@x.com" = [correo_a] ∧
  buscarPalabra (globales (estado [entrada_a; entrada_b])) "hi"
    ≡ₚ [correo_a; correo_b] ∧
  buscarPalabra (globales (estado [entrada_a; entrada_b])) "there"
    ≡ₚ [correo_a].
Proof.
  repeat split; try (by vm_compute).
  assert (buscarPalabra (globales (estado [entrada_a; entrada_b])) "hi"
          = [correo_b; correo_a]) as -> by (by vm_compute).
  apply Permutation_swap.
Qed.

(** C10. A query that, once lower-cased, is empty or holds a character
    that is not alphanumeric finds nothing. *)
Theorem buscarPalabra_no_palabra (es : list Entrada) (w : string) :
  aMinusculas w = EmptyString ∨ (∃ ch, ch ∈ lista (aMinusculas w) ∧ isalnum ch = false) →
  buscarPalabra (globales (estado es)) w = [].
Proof.
  intros Hw. destruct (estado_inv es) as [[_ _ _ _ Hmat _] _].
  unfold buscarPalabra.
  assert (resultados (globales (estado es)) w = []) as ->; [|done].
  apply elem_of_nil_inv. intros i (c & _ & _ & Hne & Hal & _)%resultados_tiene%Hmat.
  destruct Hw as [Hw | (ch & Hch & Hno)].
  - apply Hne. by rewrite Hw.
  - rewrite Forall_forall in Hal. specialize (Hal ch Hch).
    unfold alnum in Hal. congruence.
Qed.

Lemma buscarPalabra_no_palabra_witness :
  (aMinusculas "Hi there" = EmptyString ∨
   (∃ ch, ch ∈ lista (aMinusculas "Hi there") ∧ isalnum ch = false)) ∧
  buscarPalabra (globales (estado [entrada_a; entrada_b])) "Hi there" = [].
Proof.
  assert (H : aMinusculas "Hi there" = EmptyString ∨
     (∃ ch, ch ∈ lista (aMinusculas "Hi there") ∧ isalnum ch = false)).
  { right. exists " "%char. split; [|reflexivity].
    vm_compute. do 2 right. left. }
  split; [exact H|].
  exact (buscarPalabra_no_palabra [entrada_a; entrada_b] "Hi there" H).
Defined.

(** * Further properties of the program *)

(** ** Reading lines and fields *)

Module Lectura.

Lemma app_cons a s t : String a s +:+ t = String a (s +:+ t).
Proof. reflexivity. Qed.

Lemma app_uno a s : String a EmptyString +:+ s = String a s.
Proof. reflexivity. Qed.

Lemma app_vacio_r s : s +:+ EmptyString = s.
Proof. induction s as [|a s IH]; [done|]. by rewrite app_cons, IH. Qed.

Lemma app_asoc s t u : (s +:+ t) +:+ u = s +:+ t +:+ u.
Proof. induction s as [|a s IH]; [done|]. by rewrite !app_cons, IH. Qed.

Lemma largo_app s t :
  String.length (s +:+ t) = (String.length s + String.length t)%nat.
Proof. induction s as [|a s IH]; [done|]. rewrite app_cons. simpl. by rewrite IH. Qed.

Lemma getline_sin ss delim :
  delim ∉ lista ss → getline ss delim = (ss, EmptyString).
Proof.
  induction ss as [|ch ss IH]; [done|]. intros Hno.
  change (lista (String ch ss)) with (ch :: lista ss) in Hno.
  apply not_elem_of_cons in Hno as [Hch Hno]. simpl.
  rewrite decide_False by done. by rewrite IH.
Qed.

Lemma getline_con campo delim resto :
  delim ∉ lista campo →
  getline (campo +:+ String delim resto) delim = (campo, resto).
Proof.
  induction campo as [|ch campo IH]; intros Hno.
  - simpl. by rewrite decide_True.
  - change (lista (String ch campo)) with (ch :: lista campo) in Hno.
    apply not_elem_of_cons in Hno as [Hch Hno]. rewrite app_cons. simpl.
    rewrite decide_False by done. by rewrite IH.
Qed.

(** What [getline] returns, whatever the stream holds. *)
Lemma getline_partes ss delim :
  (delim ∉ lista (getline ss delim).1) ∧
  (ss = (getline ss delim).1 +:+ String delim (getline ss delim).2 ∨
   ss = (getline ss delim).1 ∧ (getline ss delim).2 = EmptyString).
Proof.
  induction ss as [|ch ss [IH1 IH2]]; simpl.
  - split; [apply not_elem_of_nil|]. by right.
  - case_decide as Hch.
    + subst ch. simpl. split; [apply not_elem_of_nil|]. by left.
    + destruct (getline ss delim) as [campo r]. simpl in *. split.
      * change (lista (String ch campo)) with (ch :: lista campo).
        apply not_elem_of_cons. split; [congruence|done].
      * destruct IH2 as [E | [E1 E2]].
        -- left. by rewrite app_cons, <- E.
        -- right. by rewrite <- E1.
Qed.

Lemma procesarLinea_separar s linea :
  procesarLinea s linea =
  if decide ((getline linea ";").1 = EmptyString) then s
  else (ingresar s (separar linea)).2.
Proof.
  unfold procesarLinea, separar. destruct (getline linea ";") as [rem ss1].
  destruct (getline ss1 ";") as [asu ss2]. destruct (getline ss2 ";") as [cue ss3].
  by destruct (getline ss3 ";").
Qed.

Lemma separar_remitente linea : (separar linea).1.1.1 = (getline linea ";").1.
Proof.
  unfold separar. destruct (getline linea ";") as [rem ss1].
  destruct (getline ss1 ";") as [asu ss2]. destruct (getline ss2 ";") as [cue ss3].
  by destruct (getline ss3 ";").
Qed.

Lemma ingresar_todos_cons s e es :
  (ingresar_todos s (e :: es)).2 = (ingresar_todos (ingresar s e).2 es).2.
Proof.
  simpl. destruct (ingresar s e) as [c s1]. simpl.
  by destruct (ingresar_todos s1 es).
Qed.

Lemma ingresar_todos_app es1 : ∀ s es2,
  (ingresar_todos s (es1 ++ es2)).2 =
  (ingresar_todos (ingresar_todos s es1).2 es2).2.
Proof.
  induction es1 as [|e es1 IH]; intros s es2; [done|].
  rewrite <- app_comm_cons, !ingresar_todos_cons. apply IH.
Qed.

Lemma cargar_ingresar archivo s :
  cargarCorreosDesdeArchivo archivo s = (ingresar_todos s (entradas_de archivo)).2.
Proof.
  destruct archivo as [lineas|]; [|done]. simpl. unfold conRemitente.
  revert s. induction lineas as [|l lineas IH]; intros s; [done|].
  rewrite filter_cons. cbn [foldl]. rewrite procesarLinea_separar, IH.
  destruct (decide ((getline l ";").1 = EmptyString)) as [Hl|Hl].
  - by rewrite decide_False by tauto.
  - by rewrite decide_True, fmap_cons, ingresar_todos_cons.
Qed.

Lemma leerLineas_unir ls ultima : ∀ turnos s,
  Forall (λ l, "010"%char ∉ lista l) ls →
  "010"%char ∉ lista ultima →
  (String.length (unir ls +:+ ultima) ≤ turnos)%nat →
  leerLineas turnos (unir ls +:+ ultima) s =
  foldl procesarLinea s (ls ++ if decide (ultima = EmptyString) then [] else [ultima]).
Proof.
  induction ls as [|l ls IH]; intros turnos s Hls Hult Hn.
  - change (unir [] +:+ ultima) with ultima in *. rewrite app_nil_l.
    destruct turnos as [|k]; simpl.
    + destruct ultima; [done|]. simpl in Hn. lia.
    + destruct (decide (ultima = EmptyString)) as [->|Hv]; [done|].
      rewrite getline_sin by done.
      by destruct k.
  - apply Forall_cons in Hls as [Hl Hls]. cbn [unir] in *.
    rewrite app_asoc, app_cons in *. rewrite largo_app in Hn. simpl in Hn.
    destruct turnos as [|k]; [lia|]. simpl.
    rewrite decide_False by (by destruct l). rewrite getline_con by done.
    apply IH; [done..|]. lia.
Qed.

End Lectura.

(** ** Lower case, words and the matrix *)

Module Matriz.
Import Lectura.

Lemma isalnum_tolower ch : isalnum (tolower ch) = isalnum ch.
Proof. by destruct ch as [[] [] [] [] [] [] [] []]. Qed.

Lemma tolower_tolower ch : tolower (tolower ch) = tolower ch.
Proof. by destruct ch as [[] [] [] [] [] [] [] []]. Qed.



Lemma lista_aMinusculas s : lista (aMinusculas s) = tolower <$> lista s.
Proof.
  induction s as [|a s IH]; [done|].
  change (lista (aMinusculas (String a s)))
    with (tolower a :: lista (aMinusculas s)). by rewrite IH.
Qed.

Lemma aMinusculas_fijo s :
  Forall (λ ch, tolower ch = ch) (lista s) → aMinusculas s = s.
Proof.
  induction s as [|a s IH]; [done|].
  change (lista (String a s)) with (a :: lista s).
  intros [Ha Hs]%Forall_cons. simpl. by rewrite Ha, IH.
Qed.


(** A word of a lower-cased text holds no upper-case letter. *)
Lemma token_minusculas p texto :
  es_token p (aMinusculas texto) → aMinusculas p = p.
Proof.
  intros (_ & _ & pre & post & E & _). apply aMinusculas_fijo, Forall_forall.
  intros ch Hch. assert (Hin : ch ∈ lista (aMinusculas texto)).
  { rewrite E, !elem_of_app. auto. }
  rewrite lista_aMinusculas in Hin.
  apply list_elem_of_fmap in Hin as (x & -> & _). apply tolower_tolower.
Qed.

(** A text without any alphanumeric character marks nothing. *)
Lemma indexar_sin_palabras texto i m :
  Forall (λ ch, isalnum ch = false) (lista texto) →
  indexar texto i EmptyString m = (EmptyString, m).
Proof.
  induction texto as [|ch resto IH]; [done|].
  change (lista (String ch resto)) with (ch :: lista resto).
  intros [Hch Hr]%Forall_cons. simpl. rewrite Hch. by apply IH.
Qed.

Lemma marcar_otra_fila m i p j : j ≠ i → marcar m i p !! j = m !! j.
Proof. intros Hne. unfold marcar. by rewrite lookup_insert_ne. Qed.

(** The loop of [crearCorreo] only touches the row of the new record. *)
Lemma indexar_otra_fila texto : ∀ i pal m pal' m' j,
  indexar texto i pal m = (pal', m') → j ≠ i →
  (if decide (pal' = EmptyString) then m' else marcar m' i pal') !! j = m !! j.
Proof.
  induction texto as [|ch resto IH]; intros i pal m pal' m' j E Hne; simpl in *.
  - injection E as <- <-. destruct (decide (pal = EmptyString)); [done|].
    by apply marcar_otra_fila.
  - destruct (isalnum ch); [by eapply IH|].
    destruct (decide (pal = EmptyString)); [by eapply IH|].
    rewrite (IH _ _ _ _ _ _ E Hne). by apply marcar_otra_fila.
Qed.

Lemma marcar_celdas m i p : celdas m → celdas (marcar m i p).
Proof.
  intros Hm j fila q. unfold marcar. destruct (decide (j = i)) as [->|Hne].
  - rewrite lookup_insert_eq. intros [= <-]. split.
    + apply insert_non_empty.
    + destruct (decide (p = q)) as [->|Hpq].
      * right. by rewrite lookup_insert_eq.
      * rewrite lookup_insert_ne by done.
        destruct (m !! i) as [f|] eqn:E; simpl.
        -- by destruct (Hm i f q E).
        -- left. apply lookup_empty.
  - rewrite lookup_insert_ne by done. apply Hm.
Qed.

Lemma indexar_celdas texto : ∀ i pal m pal' m',
  indexar texto i pal m = (pal', m') → celdas m →
  celdas (if decide (pal' = EmptyString) then m' else marcar m' i pal').
Proof.
  induction texto as [|ch resto IH]; intros i pal m pal' m' E Hm; simpl in *.
  - injection E as <- <-. destruct (decide (pal = EmptyString)); [done|].
    by apply marcar_celdas.
  - destruct (isalnum ch); [by eapply IH|].
    destruct (decide (pal = EmptyString)); [by eapply IH|].
    eapply IH; [done|]. by apply marcar_celdas.
Qed.

Lemma crearCorreo_matriz g rem asu cue fec :
  ∃ pal' m',
    indexar (aMinusculas (asu +:+ " " +:+ cue)) (nextID g) EmptyString
      (matrizDispersa g) = (pal', m') ∧
    matrizDispersa (crearCorreo g rem asu cue fec).2 =
      if decide (pal' = EmptyString) then m' else marcar m' (nextID g) pal'.
Proof.
  unfold crearCorreo. simpl. destruct (indexar _ _ _ _) as [pal' m'].
  by exists pal', m'.
Qed.

(** Induction on the states the program reaches. *)
Lemma alcanzable_ind (P : Sistema → Prop) :
  P sistema_inicial →
  (∀ s e, P s → P (ingresar s e).2) →
  ∀ es, P (estado es).
Proof.
  intros H0 Hstep es. unfold estado. generalize sistema_inicial H0.
  induction es as [|e es IH]; intros s Hs; [done|].
  rewrite ingresar_todos_cons. apply IH, Hstep, Hs.
Qed.

Lemma ingresar_globales s e :
  globales (ingresar s e).2 =
  (crearCorreo (globales s) e.1.1.1 e.1.1.2 e.1.2 e.2).2.
Proof.
  destruct e as [[[rem asu] cue] fec]. unfold ingresar. simpl.
  by destruct (crearCorreo _ _ _ _ _).
Qed.

Lemma estado_celdas es : celdas (matrizDispersa (globales (estado es))).
Proof.
  apply (alcanzable_ind (λ s, celdas (matrizDispersa (globales s)))).
  - intros i fila p E. simpl in E. by rewrite lookup_empty in E.
  - intros s e Hs. rewrite ingresar_globales.
    destruct (crearCorreo_matriz (globales s) e.1.1.1 e.1.1.2 e.1.2 e.2)
      as (pal' & m' & E & ->).
    by eapply indexar_celdas.
Qed.

Lemma imprimirResultados_presentes g ids :
  (∀ i, i ∈ ids → is_Some (correosPorID g !! i)) →
  imprimirResultados g ids = (correoDeID g <$> ids, g).
Proof.
  induction ids as [|i ids IH]; intros Hids; [done|]. simpl.
  unfold correosPorID_at, correoDeID at 1.
  destruct (Hids i) as [c ->]; [by left|]. simpl.
  rewrite IH; [done|]. intros j Hj. apply Hids. by right.
Qed.

End Matriz.

(** ** The shape of the tree *)

Module Forma.
Import Arbol Indices Lectura.

Lemma insertar_nodo_espina t c :
  espina_derecha t → Forall (λ x, antes x c) (aplanar t) →
  espina_derecha (insertar_nodo t c) ∧
  aplanar (insertar_nodo t c) = aplanar t ++ [c] ∧
  altura (insertar_nodo t c) = S (altura t).
Proof.
  induction t as [|d izq _ der IH]; simpl; [done|].
  intros [-> Hder] [Hd Hall]%Forall_cons.
  unfold antes in Hd. apply ltb_false_le in Hd. rewrite Hd. simpl.
  destruct (IH Hder Hall) as (H1 & H2 & H3). by rewrite H2, H3.
Qed.

Lemma arbol_foldl es : ∀ s,
  arbol (ingresar_todos s es).2 = foldl insertar (arbol s) (ingresar_todos s es).1.
Proof.
  induction es as [|e es IH]; intros s; [done|].
  assert (Ha : arbol (ingresar s e).2 = insertar (arbol s) (ingresar s e).1).
  { destruct e as [[[rem asu] cue] fec]. unfold ingresar.
    by destruct (crearCorreo _ _ _ _ _). }
  assert (H1 : (ingresar_todos s (e :: es)).1 =
               (ingresar s e).1 :: (ingresar_todos (ingresar s e).2 es).1).
  { simpl. destruct (ingresar s e) as [c s1]. simpl.
    by destruct (ingresar_todos s1 es). }
  rewrite ingresar_todos_cons, H1, IH, Ha. done.
Qed.

Lemma foldl_espina cs :
  StronglySorted antes cs →
  espina_derecha (raiz (foldl insertar arbol_vacio cs)) ∧
  aplanar (raiz (foldl insertar arbol_vacio cs)) = cs ∧
  altura (raiz (foldl insertar arbol_vacio cs)) = length cs.
Proof.
  induction cs as [|c cs IH] using rev_ind; [done|].
  intros (Hle & Hcs & _)%StronglySorted_app.
  destruct (IH Hcs) as (H1 & H2 & H3). rewrite foldl_snoc. simpl.
  destruct (insertar_nodo_espina (raiz (foldl insertar arbol_vacio cs)) c)
    as (G1 & G2 & G3); [done| |].
  - rewrite H2. apply Forall_forall. intros x Hx. apply Hle; [done|]. by left.
  - rewrite G2, G3, H2, H3, length_app. simpl. repeat split; [done|]. lia.
Qed.

Lemma creados_fechas es : fecha <$> creados es = (λ e : Entrada, e.2) <$> es.
Proof.
  rewrite <- (creados_campos es) at 2. rewrite <- list_fmap_compose.
  by apply list_fmap_ext.
Qed.

Lemma creados_remitentes es :
  remitente <$> creados es = (λ e : Entrada, e.1.1.1) <$> es.
Proof.
  rewrite <- (creados_campos es) at 2. rewrite <- list_fmap_compose.
  by apply list_fmap_ext.
Qed.

Lemma insertar_nodo_raiz t c :
  dato_raiz (insertar_nodo t c) = Some (default c (dato_raiz t)).
Proof.
  destruct t as [|d izq der]; [done|]. simpl.
  by destruct (String.ltb (fecha c) (fecha d)).
Qed.

Lemma foldl_raiz cs : ∀ a,
  dato_raiz (raiz (foldl insertar a cs)) =
  match dato_raiz (raiz a) with Some d => Some d | None => head cs end.
Proof.
  induction cs as [|c cs IH]; intros a; simpl.
  - by destruct (dato_raiz (raiz a)).
  - rewrite IH. simpl. rewrite insertar_nodo_raiz.
    by destruct (dato_raiz (raiz a)).
Qed.

Lemma altura_tamano t : (altura t ≤ tamano t)%nat.
Proof. induction t as [|d izq IHi der IHd]; simpl; lia. Qed.

Lemma arbol_estado es :
  arbol (estado es) = foldl insertar arbol_vacio (creados es).
Proof. apply (arbol_foldl es sistema_inicial). Qed.

End Forma.

(** ** The searches, once more *)

Module Busqueda.
Import Arbol Palabras Indices Consultas Lectura Matriz Forma.

Lemma buscarPalabra_elem es w c :
  Z.of_nat (length es) ≤ INT_MAX →
  c ∈ buscarPalabra (globales (estado es)) w ↔
  c ∈ creados es ∧ es_token (aMinusculas w) (texto_de c).
Proof.
  intros Hn. destruct (estado_inv es) as [[_ _ _ _ Hmat _] _].
  unfold buscarPalabra. rewrite list_elem_of_fmap. split.
  - intros (i & -> & (c' & Hc' & <- & Ht)%resultados_tiene%Hmat).
    unfold correoDeID. by rewrite correosPorID_creado.
  - intros [Hc Ht]. exists (id c). split.
    + unfold correoDeID. by rewrite correosPorID_creado.
    + apply resultados_tiene, Hmat. by exists c.
Qed.


Lemma resultados_presentes es w i :
  i ∈ resultados (globales (estado es)) w →
  ∃ c, correosPorID (globales (estado es)) !! i = Some c ∧ id c = i.
Proof.
  destruct (estado_inv es) as [[_ _ _ Hid Hmat _] _].
  intros (c & Hc & Hi & _)%resultados_tiene%Hmat.
  destruct (correosPorID (globales (estado es)) !! i) as [c'|] eqn:E.
  - exists c'. split; [done|]. by apply correosPorID_Some in E as [_ ?].
  - rewrite Hid in E. apply last_None in E.
    assert (c ∈ filter (λ c, id c = i) (creados es)) as Hin
      by (by apply list_elem_of_filter).
    rewrite E in Hin. by apply elem_of_nil in Hin.
Qed.

Lemma resultados_NoDup g w : NoDup (resultados g w).
Proof.
  unfold resultados. apply NoDup_fmap_fst.
  - intros i x y [_ Hx%elem_of_map_to_list]%list_elem_of_filter
      [_ Hy%elem_of_map_to_list]%list_elem_of_filter. congruence.
  - apply NoDup_filter, NoDup_map_to_list.
Qed.

Lemma verOrdenados_creados es : verOrdenados (estado es) ≡ₚ creados es.
Proof.
  destruct (estado_inv es) as [_ [_ Hperm _]].
  unfold verOrdenados. by rewrite obtenerOrdenados_aplanar.
Qed.

Lemma estado_app es1 es2 :
  estado (es1 ++ es2) = (ingresar_todos (estado es1) es2).2.
Proof. apply ingresar_todos_app. Qed.

Lemma estado_listas_no_vacias es r lista :
  correosPorRemitente (globales (estado es)) !! r = Some lista → lista ≠ [].
Proof.
  revert r lista.
  apply (alcanzable_ind
    (λ s, ∀ r lista, correosPorRemitente (globales s) !! r = Some lista → lista ≠ [])).
  - intros r lista E. simpl in E. by rewrite lookup_empty in E.
  - intros s e Hs r lista. rewrite ingresar_globales. unfold crearCorreo.
    destruct (indexar _ _ _ _). simpl.
    destruct (decide (e.1.1.1 = r)) as [->|Hne].
    + rewrite lookup_insert_eq. intros [= <-]. by intros [_ ?]%app_eq_nil.
    + rewrite lookup_insert_ne by done. apply Hs.
Qed.

Lemma texto_sin_alnum asu cue :
  Forall (λ ch, isalnum ch = false) (lista asu) →
  Forall (λ ch, isalnum ch = false) (lista cue) →
  Forall (λ ch, isalnum ch = false) (lista (aMinusculas (asu +:+ " " +:+ cue))).
Proof.
  intros Ha Hc. rewrite lista_aMinusculas, !lista_app. apply Forall_fmap.
  apply Forall_app. split; [|apply Forall_app; split].
  - eapply Forall_impl; [exact Ha|]. intros ch Hch. simpl.
    by rewrite isalnum_tolower.
  - by repeat constructor.
  - eapply Forall_impl; [exact Hc|]. intros ch Hch. simpl.
    by rewrite isalnum_tolower.
Qed.

(** A text without alphanumeric characters has no word. *)
Lemma sin_alnum_sin_token p texto :
  Forall (λ ch, isalnum ch = false) (lista texto) → ¬ es_token p texto.
Proof.
  intros Hno (Hne & Hal & pre & post & E & _).
  destruct (lista p) as [|ch l] eqn:Hp; [done|].
  apply Forall_cons in Hal as [Hch _]. unfold alnum in Hch.
  rewrite E in Hno. apply Forall_app in Hno as [_ Hno].
  apply Forall_app in Hno as [Hno _]. apply Forall_cons in Hno as [Hno _].
  congruence.
Qed.

Lemma crearCorreo_matriz_igual g rem asu cue fec :
  Forall (λ ch, isalnum ch = false) (lista asu) →
  Forall (λ ch, isalnum ch = false) (lista cue) →
  matrizDispersa (crearCorreo g rem asu cue fec).2 = matrizDispersa g.
Proof.
  intros Ha Hc. unfold crearCorreo. rewrite indexar_sin_palabras; [done|].
  by apply texto_sin_alnum.
Qed.

Lemma ingresar_todos_app_1 es1 : ∀ s es2,
  (ingresar_todos s (es1 ++ es2)).1 =
  (ingresar_todos s es1).1 ++ (ingresar_todos (ingresar_todos s es1).2 es2).1.
Proof.
  induction es1 as [|e es1 IH]; intros s es2; [done|].
  rewrite <- app_comm_cons. simpl. specialize (IH (ingresar s e).2 es2).
  destruct (ingresar s e) as [c s1]. simpl in *.
  destruct (ingresar_todos s1 (es1 ++ es2)) as [cs s2].
  destruct (ingresar_todos s1 es1) as [cs1 s3]. simpl in *. by rewrite IH.
Qed.

Lemma estado_snoc es e : estado (es ++ [e]) = (ingresar (estado es) e).2.
Proof.
  rewrite estado_app. simpl. by destruct (ingresar (estado es) e).
Qed.

Lemma creados_snoc es e :
  creados (es ++ [e]) = creados es ++ [(ingresar (estado es) e).1].
Proof.
  unfold creados. rewrite ingresar_todos_app_1. f_equal. simpl.
  change (ingresar_todos sistema_inicial es).2 with (estado es).
  by destruct (ingresar (estado es) e).
Qed.

(** While identifiers fit in [int], the identifier the counter holds has
    no row yet. *)
Lemma fila_siguiente_libre es :
  Z.of_nat (length es) < INT_MAX →
  matrizDispersa (globales (estado es)) !! nextID (globales (estado es)) = None.
Proof.
  intros Hn. destruct (estado_inv es) as [[Hnext _ _ _ _ Hfil] _].
  destruct (matrizDispersa (globales (estado es)) !! nextID (globales (estado es)))
    as [fila|] eqn:E; [|done].
  destruct (Hfil _ (mk_is_Some _ _ E)) as (c & Hc & Hid).
  assert (Hin : id c ∈ id <$> creados es) by (by apply list_elem_of_fmap_2).
  rewrite creados_ids, elem_of_seqZ in Hin by lia.
  rewrite Hid, Hnext, creados_length, id_de_pequeno in Hin by done. lia.
Qed.

End Busqueda.

(** ** The fields of a line *)

Module Campos.
Import Lectura.

Lemma separar_cuatro rem asu cue fec :
  ";"%char ∉ lista rem → ";"%char ∉ lista asu →
  ";"%char ∉ lista cue → ";"%char ∉ lista fec →
  separar (rem +:+ String ";" (asu +:+ String ";" (cue +:+ String ";" fec)))
    = (rem, asu, cue, fec) ∧
  ∀ extra,
    separar (rem +:+ String ";" (asu +:+ String ";"
               (cue +:+ String ";" (fec +:+ String ";" extra))))
    = (rem, asu, cue, fec).
Proof.
  intros Hr Ha Hc Hf. unfold separar. split; [|intros extra];
    rewrite (getline_con rem) by done; cbn beta iota;
    rewrite (getline_con asu) by done; cbn beta iota;
    rewrite (getline_con cue) by done; cbn beta iota.
  - by rewrite (getline_sin fec).
  - by rewrite (getline_con fec).
Qed.

Lemma separar_menos rem asu cue :
  ";"%char ∉ lista rem → ";"%char ∉ lista asu → ";"%char ∉ lista cue →
  separar rem = (rem, EmptyString, EmptyString, EmptyString) ∧
  separar (rem +:+ String ";" asu) = (rem, asu, EmptyString, EmptyString) ∧
  separar (rem +:+ String ";" (asu +:+ String ";" cue))
    = (rem, asu, cue, EmptyString).
Proof.
  intros Hr Ha Hc. unfold separar. repeat split.
  - by rewrite (getline_sin rem).
  - rewrite (getline_con rem) by done. cbn beta iota.
    by rewrite (getline_sin asu).
  - rewrite (getline_con rem) by done. cbn beta iota.
    rewrite (getline_con asu) by done. cbn beta iota.
    by rewrite (getline_sin cue).
Qed.

Lemma procesarLinea_con_remitente s linea :
  (separar linea).1.1.1 ≠ EmptyString →
  procesarLinea s linea = (ingresar s (separar linea)).2.
Proof.
  intros H. rewrite procesarLinea_separar, decide_False; [done|].
  by rewrite <- separar_remitente.
Qed.

End Campos.

(** * The further properties *)

Import Lectura Matriz Forma Busqueda Campos.

Ltac sin_caracter :=
  match goal with
  | |- ?P => apply (@bool_decide_unpack P _); vm_compute; exact I
  end.

(** X1. [getline] cuts the stream at the first delimiter: the field it
    reads holds no delimiter, and the stream was the field, the delimiter
    and the rest, or, when it held no delimiter, the field alone, with
    nothing left. *)
Theorem getline_descompone (ss : string) (delim : ascii) :
  (delim ∉ lista (getline ss delim).1) ∧
  (ss = (getline ss delim).1 +:+ String delim (getline ss delim).2 ∨
   ss = (getline ss delim).1 ∧ (getline ss delim).2 = EmptyString).
Proof. apply getline_partes. Qed.

(** X2. A line [rem;asu;cue;fec] whose sender is not empty and whose fields
    hold no semicolon creates the record of these four fields; whatever
    follows a fourth semicolon is ignored. *)
Theorem procesarLinea_campos (s : Sistema) (rem asu cue fec : string) :
  rem ≠ EmptyString →
  ";"%char ∉ lista rem → ";"%char ∉ lista asu →
  ";"%char ∉ lista cue → ";"%char ∉ lista fec →
  procesarLinea s (rem +:+ ";" +:+ asu +:+ ";" +:+ cue +:+ ";" +:+ fec)
    = (ingresar s (rem, asu, cue, fec)).2 ∧
  ∀ extra,
    procesarLinea s
      (rem +:+ ";" +:+ asu +:+ ";" +:+ cue +:+ ";" +:+ fec +:+ ";" +:+ extra)
    = (ingresar s (rem, asu, cue, fec)).2.
Proof.
  intros Hne Hr Ha Hc Hf.
  destruct (separar_cuatro rem asu cue fec Hr Ha Hc Hf) as [H1 H2].
  split; [|intros extra]; rewrite !app_uno, procesarLinea_con_remitente;
    rewrite ?H1, ?H2; done.
Qed.

Lemma procesarLinea_campos_witness :
  "a@x.com" ≠ EmptyString ∧
  (";"%char ∉ lista "a@x.com") ∧ (";"%char ∉ lista "Hi") ∧
  (";"%char ∉ lista "Hi there") ∧ (";"%char ∉ lista "2025-01-02") ∧
  procesarLinea sistema_inicial
      ("a@x.com" +:+ ";" +:+ "Hi" +:+ ";" +:+ "Hi there" +:+ ";" +:+ "2025-01-02")
    = (ingresar sistema_inicial ("a@x.com", "Hi", "Hi there", "2025-01-02")).2 ∧
  ∀ extra,
    procesarLinea sistema_inicial
      ("a@x.com" +:+ ";" +:+ "Hi" +:+ ";" +:+ "Hi there" +:+ ";" +:+ "2025-01-02"
         +:+ ";" +:+ extra)
    = (ingresar sistema_inicial ("a@x.com", "Hi", "Hi there", "2025-01-02")).2.
Proof.
  assert (H0 : "a@x.com" ≠ EmptyString) by discriminate.
  assert (H1 : ";"%char ∉ lista "a@x.com") by sin_caracter.
  assert (H2 : ";"%char ∉ lista "Hi") by sin_caracter.
  assert (H3 : ";"%char ∉ lista "Hi there") by sin_caracter.
  assert (H4 : ";"%char ∉ lista "2025-01-02") by sin_caracter.
  repeat (split; [assumption|]).
  exact (procesarLinea_campos sistema_inicial _ _ _ _ H0 H1 H2 H3 H4).
Defined.

(** X3. A line with fewer than four fields creates a record whose missing
    fields are empty. *)
Theorem procesarLinea_campos_faltantes (s : Sistema) (rem asu cue : string) :
  rem ≠ EmptyString →
  ";"%char ∉ lista rem → ";"%char ∉ lista asu → ";"%char ∉ lista cue →
  procesarLinea s rem
    = (ingresar s (rem, EmptyString, EmptyString, EmptyString)).2 ∧
  procesarLinea s (rem +:+ ";" +:+ asu)
    = (ingresar s (rem, asu, EmptyString, EmptyString)).2 ∧
  procesarLinea s (rem +:+ ";" +:+ asu +:+ ";" +:+ cue)
    = (ingresar s (rem, asu, cue, EmptyString)).2.
Proof.
  intros Hne Hr Ha Hc.
  destruct (separar_menos rem asu cue Hr Ha Hc) as (H1 & H2 & H3).
  rewrite !app_uno.
  repeat split; rewrite procesarLinea_con_remitente;
    rewrite ?H1, ?H2, ?H3; done.
Qed.

Lemma procesarLinea_campos_faltantes_witness :
  "a@x.com" ≠ EmptyString ∧
  (";"%char ∉ lista "a@x.com") ∧ (";"%char ∉ lista "Hi") ∧
  (";"%char ∉ lista "Hi there") ∧
  procesarLinea sistema_inicial "a@x.com"
    = (ingresar sistema_inicial
         ("a@x.com", EmptyString, EmptyString, EmptyString)).2 ∧
  procesarLinea sistema_inicial ("a@x.com" +:+ ";" +:+ "Hi")
    = (ingresar sistema_inicial ("a@x.com", "Hi", EmptyString, EmptyString)).2 ∧
  procesarLinea sistema_inicial ("a@x.com" +:+ ";" +:+ "Hi" +:+ ";" +:+ "Hi there")
    = (ingresar sistema_inicial ("a@x.com", "Hi", "Hi there", EmptyString)).2.
Proof.
  assert (H0 : "a@x.com" ≠ EmptyString) by discriminate.
  assert (H1 : ";"%char ∉ lista "a@x.com") by sin_caracter.
  assert (H2 : ";"%char ∉ lista "Hi") by sin_caracter.
  assert (H3 : ";"%char ∉ lista "Hi there") by sin_caracter.
  repeat (split; [assumption|]).
  exact (procesarLinea_campos_faltantes sistema_inicial _ _ _ H0 H1 H2 H3).
Defined.

(** X4. Loading a file on a state the program has reached amounts to
    further creations: those of the fields of the lines that have a
    sender, in the order of the file (none when the file cannot be
    opened). *)
Theorem cargar_como_creaciones (archivo : option (list string))
    (es : list Entrada) :
  cargarCorreosDesdeArchivo archivo (estado es) = estado (es ++ entradas_de archivo).
Proof. by rewrite cargar_ingresar, estado_app. Qed.

(** X5. The loop that reads the file sees the lines between the newlines:
    a content made of lines ended by newlines, then of a last line without
    newline (possibly empty, which is then no line), is loaded like the
    list of these lines. *)
Theorem cargarContenido_lineas (ls : list string) (ultima : string) (s : Sistema) :
  Forall (λ l, "010"%char ∉ lista l) ls →
  "010"%char ∉ lista ultima →
  cargarContenido (Some (unir ls +:+ ultima)) s =
  cargarCorreosDesdeArchivo
    (Some (ls ++ if decide (ultima = EmptyString) then [] else [ultima])) s.
Proof. intros Hls Hult. by apply leerLineas_unir. Qed.

Lemma cargarContenido_lineas_witness :
  Forall (λ l, "010"%char ∉ lista l) ["a@x.com;Hi;Hi there;2025-01-02"; ";x;y;z"] ∧
  ("010"%char ∉ lista "b@x.com;Yo;Hi all;2025-01-01") ∧
  cargarContenido
    (Some (unir ["a@x.com;Hi;Hi there;2025-01-02"; ";x;y;z"]
           +:+ "b@x.com;Yo;Hi all;2025-01-01")) sistema_inicial =
  cargarCorreosDesdeArchivo
    (Some (["a@x.com;Hi;Hi there;2025-01-02"; ";x;y;z"] ++
           if decide ("b@x.com;Yo;Hi all;2025-01-01" = EmptyString) then []
           else ["b@x.com;Yo;Hi all;2025-01-01"])) sistema_inicial.
Proof.
  assert (H1 : Forall (λ l, "010"%char ∉ lista l)
                 ["a@x.com;Hi;Hi there;2025-01-02"; ";x;y;z"])
    by (repeat constructor; sin_caracter).
  assert (H2 : "010"%char ∉ lista "b@x.com;Yo;Hi all;2025-01-01") by sin_caracter.
  repeat (split; [assumption|]).
  exact (cargarContenido_lineas _ _ sistema_inicial H1 H2).
Defined.

(** X6. When [main] reaches its menu, the state is the one of the three
    predefined creations followed by the creations of the file. *)
Theorem main_estado (archivo : option (list string)) :
  main_carga archivo = estado (predefinidos ++ entradas_de archivo).
Proof. unfold main_carga. by rewrite cargar_ingresar, estado_app. Qed.

(** X7. In the running program no record has an empty sender. *)
Theorem main_remitentes (archivo : option (list string)) :
  Forall (λ c, remitente c ≠ EmptyString) (verOrdenados (main_carga archivo)).
Proof.
  unfold main_carga.
  change (ingresar_todos sistema_inicial predefinidos).2 with (estado predefinidos).
  rewrite cargar_ingresar, <- estado_app, verOrdenados_creados.
  apply (Forall_fmap remitente (λ r, r ≠ EmptyString)).
  rewrite creados_remitentes, fmap_app. apply Forall_app. split.
  - by repeat constructor.
  - destruct archivo as [lineas|]; [|constructor]. simpl.
    rewrite <- list_fmap_compose. apply Forall_fmap, Forall_forall.
    intros l [Hl _]%list_elem_of_filter. simpl. by rewrite separar_remitente.
Qed.

(** X8. A keyword search changes nothing: every identifier it finds is a
    key of [correosPorID], so that [correosPorID[id]] never adds a
    default-constructed record, and the records printed are those found
    under the identifiers. *)
Theorem buscarPalabraANSI_no_modifica (es : list Entrada) (w : string) :
  buscarPalabraANSI (globales (estado es)) w =
  (buscarPalabra (globales (estado es)) w, globales (estado es)).
Proof.
  unfold buscarPalabraANSI, buscarPalabra. apply imprimirResultados_presentes.
  intros i (c & -> & _)%resultados_presentes. by exists c.
Qed.

(** X9. A keyword search lists a record once, however many times the word
    occurs in its text. *)
Theorem buscarPalabra_sin_repetidos (es : list Entrada) (w : string) :
  Z.of_nat (length es) ≤ INT_MAX →
  NoDup (resultados (globales (estado es)) w) ∧
  NoDup (buscarPalabra (globales (estado es)) w).
Proof.
  intros Hn. split; [apply resultados_NoDup|].
  unfold buscarPalabra. apply NoDup_fmap_2_strong; [|apply resultados_NoDup].
  intros i j (ci & Hi & <-)%resultados_presentes (cj & Hj & <-)%resultados_presentes.
  unfold correoDeID. rewrite Hi, Hj. simpl. by intros ->.
Qed.

Lemma buscarPalabra_sin_repetidos_witness :
  Z.of_nat (length [("a@x.com", "Hi", "Hi there, hi!", "2025-01-02")]) ≤ INT_MAX ∧
  NoDup (resultados
           (globales (estado [("a@x.com", "Hi", "Hi there, hi!", "2025-01-02")])) "hi") ∧
  NoDup (buscarPalabra
           (globales (estado [("a@x.com", "Hi", "Hi there, hi!", "2025-01-02")])) "hi").
Proof.
  assert (H : Z.of_nat (length [("a@x.com", "Hi", "Hi there, hi!", "2025-01-02")])
              ≤ INT_MAX) by (vm_compute; discriminate).
  split; [exact H|]. exact (buscarPalabra_sin_repetidos _ "hi" H).
Defined.



(** X11. The columns of the matrix are words in lower case: not empty,
    made of alphanumeric characters, without upper-case letters. *)
Theorem matriz_columnas (es : list Entrada) (i : Z) (p : string) :
  tiene (matrizDispersa (globales (estado es))) i p →
  p ≠ EmptyString ∧ Forall alnum (lista p) ∧ aMinusculas p = p.
Proof.
  destruct (estado_inv es) as [[_ _ _ _ Hmat _] _].
  intros (c & _ & _ & Ht)%Hmat. split; [|split].
  - destruct Ht as [Hne _]. intros ->. by apply Hne.
  - by destruct Ht as (_ & Hal & _).
  - by eapply token_minusculas.
Qed.

Lemma matriz_columnas_witness :
  tiene (matrizDispersa (globales (estado [entrada_a]))) 1 "there" ∧
  "there" ≠ EmptyString ∧ Forall alnum (lista "there") ∧
  aMinusculas "there" = "there".
Proof.
  assert (H : tiene (matrizDispersa (globales (estado [entrada_a]))) 1 "there").
  { exists (<["there" := 1]> {["hi" := 1]}). split; [by vm_compute|].
    exists 1. by vm_compute. }
  split; [exact H|]. exact (matriz_columnas [entrada_a] 1 "there" H).
Defined.

(** X12. No row of the matrix is empty, and every cell that exists
    holds 1. *)
Theorem matriz_celdas (es : list Entrada) (i : Z) (fila : gmap string Z)
    (p : string) :
  matrizDispersa (globales (estado es)) !! i = Some fila →
  fila_marcada fila p.
Proof. apply estado_celdas. Qed.

Lemma matriz_celdas_witness :
  matrizDispersa (globales (estado [entrada_a])) !! 1
    = Some (<["there" := 1]> {["hi" := 1]}) ∧
  fila_marcada (<["there" := 1]> {["hi" := 1]}) "hi".
Proof.
  assert (H : matrizDispersa (globales (estado [entrada_a])) !! 1
              = Some (<["there" := 1]> {["hi" := 1]})) by (by vm_compute).
  split; [exact H|]. exact (matriz_celdas [entrada_a] 1 _ "hi" H).
Defined.

(** X13. On a state the program has reached, while identifiers fit in
    [int], the creation of a record whose subject and body hold no
    alphanumeric character leaves the matrix as it was, the new record has
    no row, and no keyword search lists it. *)
Theorem crearCorreo_sin_palabras (es : list Entrada) (rem asu cue fec : string) :
  Z.of_nat (length es) < INT_MAX →
  Forall (λ ch, isalnum ch = false) (lista asu) →
  Forall (λ ch, isalnum ch = false) (lista cue) →
  let r := ingresar (estado es) (rem, asu, cue, fec) in
  matrizDispersa (globales r.2) = matrizDispersa (globales (estado es)) ∧
  matrizDispersa (globales r.2) !! id r.1 = None ∧
  ∀ w, r.1 ∉ buscarPalabra (globales r.2) w.
Proof.
  intros Hn Ha Hc r.
  assert (Hm : matrizDispersa (globales r.2) = matrizDispersa (globales (estado es))).
  { unfold r. rewrite ingresar_globales. by apply crearCorreo_matriz_igual. }
  assert (Hr : r.1 = mkCorreo (nextID (globales (estado es))) rem asu cue fec)
    by apply Indices.ingresar_campos.
  split; [done|]. split.
  - rewrite Hm, Hr. by apply fila_siguiente_libre.
  - intros w Hin. unfold r in Hin. rewrite <- estado_snoc in Hin.
    apply buscarPalabra_elem in Hin as [_ Ht].
    + fold r in Ht. rewrite Hr in Ht.
      by apply sin_alnum_sin_token in Ht; [|apply texto_sin_alnum].
    + rewrite length_app. simpl. lia.
Qed.

Lemma crearCorreo_sin_palabras_witness :
  Z.of_nat (length [entrada_a]) < INT_MAX ∧
  Forall (λ ch, isalnum ch = false) (lista EmptyString) ∧
  Forall (λ ch, isalnum ch = false) (lista "?!") ∧
  let r := ingresar (estado [entrada_a])
             ("b@x.com", EmptyString, "?!", "2025-01-01") in
  matrizDispersa (globales r.2) = matrizDispersa (globales (estado [entrada_a])) ∧
  matrizDispersa (globales r.2) !! id r.1 = None ∧
  ∀ w, r.1 ∉ buscarPalabra (globales r.2) w.
Proof.
  assert (H0 : Z.of_nat (length [entrada_a]) < INT_MAX) by reflexivity.
  assert (H1 : Forall (λ ch, isalnum ch = false) (lista EmptyString))
    by constructor.
  assert (H2 : Forall (λ ch, isalnum ch = false) (lista "?!"))
    by (repeat constructor).
  repeat (split; [assumption|]).
  exact (crearCorreo_sin_palabras [entrada_a] "b@x.com" _ _ "2025-01-01" H0 H1 H2).
Defined.

(** X14. A creation leaves the lists of the other senders, the records
    under the other identifiers and the rows of the other identifiers as
    they were. *)
Theorem crearCorreo_marco (g : Globales) (rem asu cue fec r : string) (i : Z) :
  r ≠ rem → i ≠ nextID g →
  buscarRemitente (crearCorreo g rem asu cue fec).2 r = buscarRemitente g r ∧
  correosPorID (crearCorreo g rem asu cue fec).2 !! i = correosPorID g !! i ∧
  matrizDispersa (crearCorreo g rem asu cue fec).2 !! i = matrizDispersa g !! i.
Proof.
  intros Hr Hi.
  destruct (crearCorreo_matriz g rem asu cue fec) as (pal' & m' & E & ->).
  rewrite (indexar_otra_fila _ _ _ _ _ _ _ E Hi).
  unfold crearCorreo, buscarRemitente. destruct (indexar _ _ _ _). simpl.
  by rewrite !lookup_insert_ne.
Qed.

Lemma crearCorreo_marco_witness :
  "a@x.com" ≠ "b@x.com" ∧ 1 ≠ nextID (globales (estado [entrada_a])) ∧
  buscarRemitente
    (crearCorreo (globales (estado [entrada_a])) "b@x.com" "Yo" "Hi all"
       "2025-01-01").2 "a@x.com"
    = buscarRemitente (globales (estado [entrada_a])) "a@x.com" ∧
  correosPorID
    (crearCorreo (globales (estado [entrada_a])) "b@x.com" "Yo" "Hi all"
       "2025-01-01").2 !! 1
    = correosPorID (globales (estado [entrada_a])) !! 1 ∧
  matrizDispersa
    (crearCorreo (globales (estado [entrada_a])) "b@x.com" "Yo" "Hi all"
       "2025-01-01").2 !! 1
    = matrizDispersa (globales (estado [entrada_a])) !! 1.
Proof.
  assert (H1 : "a@x.com" ≠ "b@x.com") by discriminate.
  assert (H2 : 1 ≠ nextID (globales (estado [entrada_a])))
    by (vm_compute; discriminate).
  repeat (split; [assumption|]).
  exact (crearCorreo_marco _ "b@x.com" "Yo" "Hi all" "2025-01-01" "a@x.com" 1 H1 H2).
Defined.

(** X15. A creation never takes a record out of the results of a keyword
    search. *)
Theorem crearCorreo_conserva_resultados (g : Globales)
    (rem asu cue fec w : string) (i : Z) :
  i ∈ resultados g w → i ∈ resultados (crearCorreo g rem asu cue fec).2 w.
Proof.
  rewrite !Consultas.resultados_tiene.
  destruct (crearCorreo_matriz g rem asu cue fec) as (pal' & m' & E & ->).
  rewrite (Palabras.indexar_tiene _ _ _ _ _ _ E). by left.
Qed.

Lemma crearCorreo_conserva_resultados_witness :
  1 ∈ resultados (globales (estado [entrada_a])) "hi" ∧
  1 ∈ resultados
        (crearCorreo (globales (estado [entrada_a])) "b@x.com" "Yo" "Hi all"
           "2025-01-01").2 "hi".
Proof.
  assert (H : 1 ∈ resultados (globales (estado [entrada_a])) "hi")
    by (vm_compute; left).
  split; [exact H|].
  exact (crearCorreo_conserva_resultados _ "b@x.com" "Yo" "Hi all" "2025-01-01" "hi" 1 H).
Defined.

(** X16. The tree is never rebalanced: when the records arrive in
    non-decreasing order of date, no node gets a left child, the tree is
    as high as it has records, and the list shown is the list of the
    records in creation order. *)
Theorem arbol_entradas_ordenadas (es : list Entrada) :
  StronglySorted String.le ((λ e : Entrada, e.2) <$> es) →
  espina_derecha (raiz (arbol (estado es))) ∧
  altura (raiz (arbol (estado es))) = length es ∧
  verOrdenados (estado es) = creados es.
Proof.
  intros Hs. rewrite <- creados_fechas in Hs.
  assert (Hcs : StronglySorted antes (creados es)).
  { revert Hs. generalize (creados es). intros cs.
    induction cs as [|c cs IH]; [constructor|]. rewrite fmap_cons.
    intros [Hc Hcs]%StronglySorted_cons. constructor; [by apply IH|].
    rewrite Forall_fmap in Hc. eapply Forall_impl; [exact Hc|]. by intros x Hx. }
  destruct (foldl_espina (creados es) Hcs) as (H1 & H2 & H3).
  unfold verOrdenados. rewrite Arbol.obtenerOrdenados_aplanar, arbol_estado.
  repeat split; [done| |done].
  by rewrite H3, Indices.creados_length.
Qed.

Lemma arbol_entradas_ordenadas_witness :
  StronglySorted String.le ((λ e : Entrada, e.2) <$> [entrada_b; entrada_a]) ∧
  espina_derecha (raiz (arbol (estado [entrada_b; entrada_a]))) ∧
  altura (raiz (arbol (estado [entrada_b; entrada_a])))
    = length [entrada_b; entrada_a] ∧
  verOrdenados (estado [entrada_b; entrada_a]) = creados [entrada_b; entrada_a].
Proof.
  assert (H : StronglySorted String.le
                ((λ e : Entrada, e.2) <$> [entrada_b; entrada_a])).
  { repeat constructor. }
  split; [exact H|]. exact (arbol_entradas_ordenadas [entrada_b; entrada_a] H).
Defined.

(** X17. The first record created stays at the root of the tree for ever,
    and the tree is never higher than it has records. *)
Theorem arbol_raiz (es : list Entrada) :
  dato_raiz (raiz (arbol (estado es))) = head (creados es) ∧
  (altura (raiz (arbol (estado es))) ≤ length es)%nat.
Proof.
  split.
  - by rewrite arbol_estado, foldl_raiz.
  - destruct (Indices.estado_inv es) as [_ [_ Hperm _]].
    etrans; [apply altura_tamano|].
    by rewrite Arbol.tamano_aplanar, Hperm, Indices.creados_length.
Qed.


(** X19. A sender is missing from the sender map, which makes the search
    by sender answer that nothing was found, exactly when no record has
    this sender: the map never holds an empty list. *)
Theorem remitente_desconocido (es : list Entrada) (r : string) :
  correosPorRemitente (globales (estado es)) !! r = None ↔
  ∀ c, c ∈ creados es → remitente c ≠ r.
Proof.
  destruct (Indices.estado_inv es) as [[_ _ Hrem _ _ _] _].
  specialize (Hrem r). unfold buscarRemitente in Hrem.
  destruct (correosPorRemitente (globales (estado es)) !! r) as [lista|] eqn:E.
  - split; [done|]. intros Hno. exfalso.
    apply (estado_listas_no_vacias es r lista E).
    rewrite Hrem. apply elem_of_nil_inv.
    intros c [Hc Hin]%list_elem_of_filter. by apply (Hno c).
  - split; [|done]. intros _ c Hc Hr.
    assert (c ∈ filter (λ c, remitente c = r) (creados es)) as Hin
      by (by apply list_elem_of_filter).
    rewrite <- Hrem in Hin. by apply elem_of_nil in Hin.
Qed.
